(** * generate_yaml.py: the Quip HTML to learning-map converter

    A shallow embedding of [src/generate_yaml.py] and the properties its
    specification states about it.

    The script is Python 2 code: [raw.encode("utf-8")] yields a byte string
    ([str]) that is concatenated with ["\n"] and matched against a [str]
    regular expression.  Byte strings are modelled by [string] (a list of
    8-bit characters), unicode text by a list of code points.

    The parser mutates dictionaries that are shared between [self.output]
    and the [current_*] attributes.  The embedding keeps an object store
    (three lists, one per kind of dictionary) and references (indices) into
    it, so that a write through a stale reference is visible in the output
    tree exactly as it is in Python. *)

From Stdlib Require Import Ascii NArith.
From stdpp Require Import base option list strings gmap.

Local Open Scope N_scope.

(** ** Text: unicode, UTF-8, whitespace and the item pattern *)

Definition byte_of (n : N) : ascii := ascii_of_N (n mod 256).

(** [unicode.encode("utf-8")] for one code point. *)
Definition encode_code_point (c : N) : string :=
  if c <? 128 then
    String (byte_of c) ""
  else if c <? 2048 then
    String (byte_of (N.lor 192 (N.shiftr c 6)))
      (String (byte_of (N.lor 128 (N.land c 63))) "")
  else if c <? 65536 then
    String (byte_of (N.lor 224 (N.shiftr c 12)))
      (String (byte_of (N.lor 128 (N.land (N.shiftr c 6) 63)))
         (String (byte_of (N.lor 128 (N.land c 63))) ""))
  else
    String (byte_of (N.lor 240 (N.shiftr c 18)))
      (String (byte_of (N.lor 128 (N.land (N.shiftr c 12) 63)))
         (String (byte_of (N.lor 128 (N.land (N.shiftr c 6) 63)))
            (String (byte_of (N.lor 128 (N.land c 63))) ""))).

Fixpoint encode_utf8 (raw : list N) : string :=
  match raw with
  | [] => ""
  | c :: raw' => encode_code_point c +:+ encode_utf8 raw'
  end.

(** The code points of a byte string read as Latin-1; on ASCII text this is
    the unicode string with the same characters. *)
Fixpoint unicode (s : string) : list N :=
  match s with
  | "" => []
  | String c s' => N_of_ascii c :: unicode s'
  end.

(** [\w] of a [str] pattern compiled without flags: [[a-zA-Z0-9_]]. *)
Definition is_word (c : ascii) : bool :=
  let n := N_of_ascii c in
  ((48 <=? n) && (n <=? 57)) || ((65 <=? n) && (n <=? 90))
  || (n =? 95) || ((97 <=? n) && (n <=? 122)).

(** [.] of a pattern compiled without [re.DOTALL]: anything but a newline. *)
Definition is_dot (c : ascii) : bool := negb (N_of_ascii c =? 10).

(** The longest prefix whose characters satisfy [f], and what follows it. *)
Fixpoint span_of (f : ascii → bool) (s : string) : string * string :=
  match s with
  | "" => ("", "")
  | String c s' =>
      if f c then let '(a, b) := span_of f s' in (String c a, b)
      else ("", s)
  end.

(** Every character of [s] satisfies [f]. *)
Fixpoint all_chars (f : ascii → bool) (s : string) : bool :=
  match s with
  | "" => true
  | String c s' => f c && all_chars f s'
  end.

(** [s] is empty or starts with a character that does not satisfy [f]. *)
Definition stops (f : ascii → bool) (s : string) : Prop :=
  match s with
  | "" => True
  | String c _ => f c = false
  end.

(** What it means for [(\w+):(.+)] to match at the start of [data] with
    groups [k] and [v], read off the pattern: a non-empty run of word
    characters, a colon, and a non-empty run of characters other than a
    newline that is as long as possible. *)
Definition matches_item_pattern (data k v : string) : Prop :=
  ∃ rest,
    data = k +:+ ":" +:+ v +:+ rest ∧
    k ≠ "" ∧ all_chars is_word k = true ∧
    v ≠ "" ∧ all_chars is_dot v = true ∧ stops is_dot rest.

(** [item_regex.match(data)] for [item_regex = re.compile("(\w+):(.+)")]:
    the groups 1 and 2 of the match anchored at the start of [data], if
    there is one.  [\w+] can only stop where a [:] follows, so it takes the
    whole leading run of word characters; [.+] is greedy and is the last
    atom, so it takes everything up to the first newline. *)
Definition item_regex_match (data : string) : option (string * string) :=
  match span_of is_word data with
  | (String c k, String ":" rest) =>
      match fst (span_of is_dot rest) with
      | "" => None
      | v => Some (String c k, v)
      end
  | _ => None
  end.

(** The one-character string ["\n"]. *)
Definition newline : string := String (ascii_of_N 10) "".

(** [str.strip()] with no argument. *)
Fixpoint lstrip (s : string) : string :=
  match s with
  | "" => ""
  | String c s' => if Ascii.is_space c then lstrip s' else s
  end.

Definition rstrip (s : string) : string := String.rev (lstrip (String.rev s)).

Definition strip (s : string) : string := rstrip (lstrip s).

(** ** Exceptions *)

Inductive exn : Type :=
  | AttributeError (name : string)   (* an attribute of [self] not yet set *)
  | KeyError (key : string)          (* a missing dictionary key *)
  | IndexError                       (* [pop] or [argv[1]] out of range *)
  | TypeError                        (* subscript of a value that has none *)
  | StopIteration                    (* [next] of an exhausted iterator *)
  | AssertionError (message : string)
  | UnboundLocalError                (* a local variable read before set *)
  | IOError                          (* the configuration file cannot be opened *)
  | ValueError                       (* [json.loads] of malformed text *)
  | URLError                         (* the request failed *)
  | UnicodeEncodeError               (* [str] of a unicode text that is not ASCII *)
  | Dangling.                        (* a reference outside the store *)

Inductive result (A : Type) : Type :=
  | Ok (a : A)
  | Raise (e : exn).
Arguments Ok {A} a.
Arguments Raise {A} e.

Definition bind {A B : Type} (m : result A) (f : A → result B) : result B :=
  match m with
  | Ok a => f a
  | Raise e => Raise e
  end.

Notation "'do' x <- m ; k" := (bind m (fun x => k))
  (at level 10, x name, m at level 100, k at level 200,
   format "'[v' 'do'  x  <-  m ; '/' k ']'").

Definition is_ok {A : Type} (m : result A) : bool :=
  match m with Ok _ => true | Raise _ => false end.

(** ** The dictionaries the parser builds *)

Abbreviation ref := nat.

(** [self.output]: all three keys are written by [__init__]. *)
Module Output.
Record t : Type := mk {
  title : string;
  description : string;
  steps : option (list ref)
}.
End Output.

(** A step dictionary: [description] and [columns] are optional keys. *)
Module Step.
Record t : Type := mk {
  navtitle : string;
  title : string;
  description : option string;
  columns : option (list ref)
}.
End Step.

(** A column dictionary: [items] is an optional key. *)
Module Column.
Record t : Type := mk {
  title : string;
  items : option (list ref)
}.
End Column.

(** An item dictionary has whatever keys the document gives it. *)
Abbreviation item := (gmap string string).

(** [self.state] only ever holds one of four string constants. *)
Inductive mode : Type :=
  | title_mode     (* "title" *)
  | step_mode      (* "step" *)
  | column_mode    (* "column" *)
  | item_mode.     (* "item" *)

Global Instance mode_eq_dec : EqDecision mode.
Proof. solve_decision. Defined.

(** The attributes of a [QuipHTMLToYamlParser] and the objects they
    refer to.  An attribute that [__init__] does not set is [None] until
    its first assignment. *)
Record parser : Type := mk_parser {
  output : Output.t;
  current_tags : list string;
  state : mode;
  defining_steps : option bool;
  current_step : option ref;
  current_column : option ref;
  current_item : option ref;
  current_key : option string;
  step_store : list Step.t;
  column_store : list Column.t;
  item_store : list item
}.

(** [QuipHTMLToYamlParser.__init__] *)
Definition init : parser :=
  {| output := Output.mk "" "" (Some []);
     current_tags := [];
     state := title_mode;
     defining_steps := None;
     current_step := None;
     current_column := None;
     current_item := None;
     current_key := None;
     step_store := [];
     column_store := [];
     item_store := [] |}.

Definition set_output (o : Output.t) (p : parser) : parser :=
  mk_parser o (current_tags p) (state p) (defining_steps p) (current_step p)
    (current_column p) (current_item p) (current_key p)
    (step_store p) (column_store p) (item_store p).

Definition set_current_tags (l : list string) (p : parser) : parser :=
  mk_parser (output p) l (state p) (defining_steps p) (current_step p)
    (current_column p) (current_item p) (current_key p)
    (step_store p) (column_store p) (item_store p).

Definition set_state (m : mode) (p : parser) : parser :=
  mk_parser (output p) (current_tags p) m (defining_steps p) (current_step p)
    (current_column p) (current_item p) (current_key p)
    (step_store p) (column_store p) (item_store p).

Definition set_defining_steps (b : bool) (p : parser) : parser :=
  mk_parser (output p) (current_tags p) (state p) (Some b) (current_step p)
    (current_column p) (current_item p) (current_key p)
    (step_store p) (column_store p) (item_store p).

Definition set_current_step (r : ref) (p : parser) : parser :=
  mk_parser (output p) (current_tags p) (state p) (defining_steps p) (Some r)
    (current_column p) (current_item p) (current_key p)
    (step_store p) (column_store p) (item_store p).

Definition set_current_column (r : ref) (p : parser) : parser :=
  mk_parser (output p) (current_tags p) (state p) (defining_steps p)
    (current_step p) (Some r) (current_item p) (current_key p)
    (step_store p) (column_store p) (item_store p).

Definition set_current_item (r : ref) (p : parser) : parser :=
  mk_parser (output p) (current_tags p) (state p) (defining_steps p)
    (current_step p) (current_column p) (Some r) (current_key p)
    (step_store p) (column_store p) (item_store p).

Definition set_current_key (k : string) (p : parser) : parser :=
  mk_parser (output p) (current_tags p) (state p) (defining_steps p)
    (current_step p) (current_column p) (current_item p) (Some k)
    (step_store p) (column_store p) (item_store p).

Definition set_step_store (h : list Step.t) (p : parser) : parser :=
  mk_parser (output p) (current_tags p) (state p) (defining_steps p)
    (current_step p) (current_column p) (current_item p) (current_key p)
    h (column_store p) (item_store p).

Definition set_column_store (h : list Column.t) (p : parser) : parser :=
  mk_parser (output p) (current_tags p) (state p) (defining_steps p)
    (current_step p) (current_column p) (current_item p) (current_key p)
    (step_store p) h (item_store p).

Definition set_item_store (h : list item) (p : parser) : parser :=
  mk_parser (output p) (current_tags p) (state p) (defining_steps p)
    (current_step p) (current_column p) (current_item p) (current_key p)
    (step_store p) (column_store p) h.

(** Reading an attribute of [self], and following a reference. *)
Definition attr {A : Type} (name : string) (o : option A) : result A :=
  match o with
  | Some a => Ok a
  | None => Raise (AttributeError name)
  end.

Definition deref {A : Type} (h : list A) (r : ref) : result A :=
  match h !! r with
  | Some a => Ok a
  | None => Raise Dangling
  end.

(** [d[key]] on an optional key. *)
Definition item_of {A : Type} (key : string) (o : option A) : result A :=
  match o with
  | Some a => Ok a
  | None => Raise (KeyError key)
  end.

(** ** The event handlers *)

(** [handle_starttag(tag, attrs)]; the attributes are never consulted. *)
Definition handle_starttag (tag : string) (p : parser) : result parser :=
  let p := set_current_tags (current_tags p ++ [tag]) p in
  if bool_decide (tag = "ul" ∧ (state p = column_mode ∨ state p = item_mode))
  then
    let p := set_state item_mode p in
    do c <- attr "current_column" (current_column p);
    do col <- deref (column_store p) c;
    (* if not self.current_column.get("items", None): ... = [] *)
    let col :=
      match Column.items col with
      | Some (_ :: _) => col
      | _ => Column.mk (Column.title col) (Some [])
      end in
    (* self.current_item = {} *)
    let i := length (item_store p) in
    let p := set_current_item i (set_item_store (item_store p ++ [∅]) p) in
    (* self.current_column["items"].append(self.current_item) *)
    do items <- item_of "items" (Column.items col);
    Ok (set_column_store
          (<[c := Column.mk (Column.title col) (Some (items ++ [i]))]>
             (column_store p)) p)
  else Ok p.

(** [handle_endtag(tag)]: pops whatever is innermost, [tag] is not looked
    at. *)
Definition handle_endtag (tag : string) (p : parser) : result parser :=
  match current_tags p with
  | [] => Raise IndexError
  | _ :: _ => Ok (set_current_tags (removelast (current_tags p)) p)
  end.

(** The branches of [handle_data], in source order.  Each one is guarded
    in [handle_data] by the condition of its [if]. *)

Definition data_h1 (data : string) (p : parser) : result parser :=
  let p := set_defining_steps false p in
  let o := output p in
  Ok (set_output (Output.mk data (Output.description o) (Output.steps o)) p).

Definition data_p_title (data : string) (p : parser) : result parser :=
  let o := output p in
  Ok (set_output
        (Output.mk (Output.title o) (Output.description o +:+ data +:+ newline)
           (Output.steps o)) p).

Definition data_h2 (data : string) (p : parser) : result parser :=
  let p := set_state step_mode p in
  (* self.current_step = {"navtitle": data, "title": data} *)
  let s := length (step_store p) in
  let p :=
    set_current_step s
      (set_step_store (step_store p ++ [Step.mk data data None None]) p) in
  (* self.output["steps"].append(self.current_step) *)
  let o := output p in
  do steps <- item_of "steps" (Output.steps o);
  Ok (set_output
        (Output.mk (Output.title o) (Output.description o)
           (Some (steps ++ [s]))) p).

Definition data_blockquote (data : string) (p : parser) : result parser :=
  do s <- attr "current_step" (current_step p);
  do st <- deref (step_store p) s;
  Ok (set_step_store
        (<[s := Step.mk (Step.navtitle st) data (Step.description st)
                  (Step.columns st)]> (step_store p)) p).

Definition data_p_step (data : string) (p : parser) : result parser :=
  do s <- attr "current_step" (current_step p);
  do st <- deref (step_store p) s;
  (* if not self.current_step.get("description", None): ... = "" *)
  let d :=
    match Step.description st with
    | Some (String c d') => String c d'
    | _ => ""
    end in
  Ok (set_step_store
        (<[s := Step.mk (Step.navtitle st) (Step.title st)
                  (Some (d +:+ data +:+ newline)) (Step.columns st)]>
           (step_store p)) p).

Definition data_h3 (data : string) (p : parser) : result parser :=
  let p := set_state column_mode p in
  do s <- attr "current_step" (current_step p);
  do st <- deref (step_store p) s;
  (* if not self.current_step.get("columns", None): ... = [] *)
  let cols :=
    match Step.columns st with
    | Some (c :: cols') => c :: cols'
    | _ => []
    end in
  (* self.current_column = {"title": data} *)
  let c := length (column_store p) in
  let p :=
    set_current_column c
      (set_column_store (column_store p ++ [Column.mk data None]) p) in
  (* self.current_step["columns"].append(self.current_column) *)
  Ok (set_step_store
        (<[s := Step.mk (Step.navtitle st) (Step.title st)
                  (Step.description st) (Some (cols ++ [c]))]>
           (step_store p)) p).

(** [current_tag == "span" and self.state == "item"]: a text that does not
    match the pattern leaves the parser as it is. *)
Definition data_span (data : string) (p : parser) : result parser :=
  match item_regex_match data with
  | Some (g1, g2) =>
      let key := strip g1 in
      let value := strip g2 in
      let p := set_current_key key p in
      do i <- attr "current_item" (current_item p);
      do it <- deref (item_store p) i;
      Ok (set_item_store (<[i := <[key := value]> it]> (item_store p)) p)
  | None => Ok p
  end.

(** The [elif "span" in self.current_tags] branch:
    [self.current_item[self.current_key] += data]. *)
Definition data_continuation (data : string) (p : parser) : result parser :=
  do i <- attr "current_item" (current_item p);
  do key <- attr "current_key" (current_key p);
  do it <- deref (item_store p) i;
  do old <- item_of key (it !! key);
  Ok (set_item_store (<[i := <[key := old +:+ data]> it]> (item_store p)) p).

(** [handle_data(raw)].  The [if]s are not chained: each one is tested on
    the parser as the previous ones left it.  Only the last one has an
    [elif]. *)
Definition handle_data (raw : list N) (p : parser) : result parser :=
  let data := encode_utf8 raw in
  match last (current_tags p) with
  | None => Ok p
  | Some current_tag =>
      do p <- (if bool_decide (current_tag = "h1" ∧ state p = title_mode)
               then data_h1 data p else Ok p);
      do p <- (if bool_decide (current_tag = "p" ∧ state p = title_mode)
               then data_p_title data p else Ok p);
      do p <- (if bool_decide (current_tag = "h2")
               then data_h2 data p else Ok p);
      do p <- (if bool_decide (current_tag = "blockquote" ∧ state p = step_mode)
               then data_blockquote data p else Ok p);
      do p <- (if bool_decide (current_tag = "p" ∧ state p = step_mode)
               then data_p_step data p else Ok p);
      do p <- (if bool_decide (current_tag = "h3" ∧ state p = step_mode)
               then data_h3 data p else Ok p);
      if bool_decide (current_tag = "span" ∧ state p = item_mode)
      then data_span data p
      else if bool_decide ("span" ∈ current_tags p)
      then data_continuation data p
      else Ok p
  end.

(** ** Running the parser over a stream of events *)

Inductive event : Type :=
  | TagOpen (tag : string)
  | TagClose (tag : string)
  | Text (raw : list N).

Definition handle (e : event) (p : parser) : result parser :=
  match e with
  | TagOpen tag => handle_starttag tag p
  | TagClose tag => handle_endtag tag p
  | Text raw => handle_data raw p
  end.

(** The events of a document, handled in order from the parser [p]. *)
Fixpoint feed_from (p : parser) (evs : list event) : result parser :=
  match evs with
  | [] => Ok p
  | e :: evs' => do p' <- handle e p; feed_from p' evs'
  end.

(** [parser = QuipHTMLToYamlParser(); parser.feed(...)] *)
Definition feed (evs : list event) : result parser := feed_from init evs.

(** ** The tree that is handed to [yaml.dump] *)

Record column : Type := mk_column {
  column_title : string;
  column_items : option (list item)
}.

Record step : Type := mk_step {
  step_navtitle : string;
  step_title : string;
  step_description : option string;
  step_columns : option (list column)
}.

Record document : Type := mk_document {
  doc_title : string;
  doc_description : string;
  doc_steps : option (list step)
}.

(** The objects a list of references points to, in order. *)
Definition follow {B : Type} (f : ref → option B) (o : option (list ref))
    : option (list B) :=
  match o with
  | Some l => Some (omap (M := list) f l)
  | None => None
  end.

Definition tree_of_column (p : parser) (col : Column.t) : column :=
  mk_column (Column.title col)
    (follow (λ i, item_store p !! i) (Column.items col)).

Definition column_of (p : parser) (c : ref) : option column :=
  match column_store p !! c with
  | Some col => Some (tree_of_column p col)
  | None => None
  end.

Definition tree_of_step (p : parser) (st : Step.t) : step :=
  mk_step (Step.navtitle st) (Step.title st) (Step.description st)
    (follow (column_of p) (Step.columns st)).

Definition step_of (p : parser) (s : ref) : option step :=
  match step_store p !! s with
  | Some st => Some (tree_of_step p st)
  | None => None
  end.

(** [parser.output], with every reference followed. *)
Definition document_of (p : parser) : document :=
  let o := output p in
  mk_document (Output.title o) (Output.description o)
    (follow (step_of p) (Output.steps o)).

(** The steps of a document, and the columns of all its steps. *)
Definition steps_in (d : document) : list step := default [] (doc_steps d).

Definition columns_in (d : document) : list column :=
  steps_in d ≫= λ s, default [] (step_columns s).

(** One item of the tree: [steps[s]["columns"][c]["items"][i][key]]. *)
Definition item_at (d : document) (s c i : nat) (key : string)
    : option string :=
  match doc_steps d with
  | Some steps =>
      match steps !! s with
      | Some st =>
          match step_columns st with
          | Some cols =>
              match cols !! c with
              | Some col =>
                  match column_items col with
                  | Some items =>
                      match items !! i with
                      | Some it => it !! key
                      | None => None
                      end
                  | None => None
                  end
              | None => None
              end
          | None => None
          end
      | None => None
      end
  | None => None
  end.

(** The item [self.current_item] refers to. *)
Definition the_item (p : parser) : option item :=
  match current_item p with
  | Some i => item_store p !! i
  | None => None
  end.

(** ** Event streams, described without running the parser *)

(** The open-tag stack after one more event. *)
Definition tags_after (e : event) (tags : list string) : list string :=
  match e with
  | TagOpen tag => tags ++ [tag]
  | TagClose _ => removelast tags
  | Text _ => tags
  end.

(** The texts that arrive while [tag] is the innermost open tag, in
    order; [tags] is the stack at the start of [evs]. *)
Fixpoint texts_under (tag : string) (tags : list string) (evs : list event)
    : list string :=
  match evs with
  | [] => []
  | e :: evs' =>
      let rest := texts_under tag (tags_after e tags) evs' in
      match e with
      | Text raw =>
          if decide (last tags = Some tag) then encode_utf8 raw :: rest
          else rest
      | _ => rest
      end
  end.

(** The level-2 heading texts of a document. *)
Definition h2_texts (evs : list event) : list string :=
  texts_under "h2" [] evs.

(** The level-3 heading texts of a document. *)
Definition h3_texts (evs : list event) : list string :=
  texts_under "h3" [] evs.

(** Every [TagClose] has an earlier [TagOpen] that is still open;
    [depth] tags are open at the start of [evs]. *)
Fixpoint balanced_from (depth : nat) (evs : list event) : bool :=
  match evs with
  | [] => true
  | TagOpen _ :: evs' => balanced_from (S depth) evs'
  | TagClose _ :: evs' =>
      match depth with
      | O => false
      | S d => balanced_from d evs'
      end
  | Text _ :: evs' => balanced_from depth evs'
  end.

Definition balanced (evs : list event) : bool := balanced_from 0 evs.

(** Replace the title of the last (navtitle, title) pair. *)
Definition retitle_last (t : string) (acc : list (string * string))
    : list (string * string) :=
  match last acc with
  | Some (nav, _) => removelast acc ++ [(nav, t)]
  | None => acc
  end.

(** The (navtitle, title) pairs the specification gives the steps of a
    document: each level-2 heading text starts a step with both equal to
    the text; a quote-block text that arrives while the step is still in
    Step mode (no level-3 heading text since the step's heading) replaces
    its title.  [in_step] says whether the pass is in Step mode, [acc] holds
    the pairs of the steps started so far. *)
Fixpoint expected_steps_from (tags : list string) (in_step : bool)
    (acc : list (string * string)) (evs : list event)
    : list (string * string) :=
  match evs with
  | [] => acc
  | Text raw :: evs' =>
      let d := encode_utf8 raw in
      if decide (last tags = Some "h2") then
        expected_steps_from tags true (acc ++ [(d, d)]) evs'
      else if decide (last tags = Some "blockquote") then
        expected_steps_from tags in_step
          (if in_step then retitle_last d acc else acc) evs'
      else if decide (last tags = Some "h3") then
        expected_steps_from tags false acc evs'
      else expected_steps_from tags in_step acc evs'
  | e :: evs' => expected_steps_from (tags_after e tags) in_step acc evs'
  end.

Definition expected_steps (evs : list event) : list (string * string) :=
  expected_steps_from [] false [] evs.

(** No text arrives inside a quote block. *)
Definition no_quote (evs : list event) : Prop :=
  texts_under "blockquote" [] evs = [].

(** A text is a continuation when it reaches the [elif] of [handle_data]:
    a [span] is open, and the text is not that of an innermost [span] in
    Item mode.  [guarded_from tags m key evs] holds when every continuation
    text of [evs] comes after a text that matched the item pattern in the
    same item: [key] says whether one has been seen since the item was
    started, [m] is the mode. *)
Fixpoint guarded_from (tags : list string) (m : mode) (key : bool)
    (evs : list event) : bool :=
  match evs with
  | [] => true
  | TagOpen tag :: evs' =>
      if decide (tag = "ul" ∧ (m = column_mode ∨ m = item_mode))
      then guarded_from (tags ++ [tag]) item_mode false evs'
      else guarded_from (tags ++ [tag]) m key evs'
  | TagClose _ :: evs' => guarded_from (removelast tags) m key evs'
  | Text raw :: evs' =>
      match last tags with
      | None => guarded_from tags m key evs'
      | Some tag =>
          let m' :=
            if decide (tag = "h2") then step_mode
            else if decide (tag = "h3" ∧ m = step_mode) then column_mode
            else m in
          if decide (tag = "span" ∧ m' = item_mode) then
            guarded_from tags m'
              (if item_regex_match (encode_utf8 raw) is Some _ then true
               else key) evs'
          else if decide ("span" ∈ tags) then
            key && guarded_from tags m' key evs'
          else guarded_from tags m' key evs'
      end
  end.

Definition guarded (evs : list event) : bool :=
  guarded_from [] title_mode false evs.

(** ** Example documents *)

Definition open_item : list event :=
  [TagOpen "h2"; Text (unicode "S"); TagClose "h2";
   TagOpen "h3"; Text (unicode "C"); TagClose "h3";
   TagOpen "ul"; TagOpen "li"].

(** [<span>title: Foo</span><span> Bar</span>] in one list entry. *)
Definition two_spans : list event :=
  open_item ++
  [TagOpen "span"; Text (unicode "title: Foo"); TagClose "span";
   TagOpen "span"; Text (unicode " Bar"); TagClose "span";
   TagClose "li"; TagClose "ul"].

(** [<span>title: Foo<b> Bar</b></span>] in one list entry. *)
Definition nested_span : list event :=
  open_item ++
  [TagOpen "span"; Text (unicode "title: Foo");
   TagOpen "b"; Text (unicode " Bar"); TagClose "b"; TagClose "span";
   TagClose "li"; TagClose "ul"].

(** [<span>hello</span>] as the first span of a list entry. *)
Definition keyless_span : list event :=
  open_item ++
  [TagOpen "span"; Text (unicode "hello"); TagClose "span";
   TagClose "li"; TagClose "ul"].

(** A second list whose first text is nested in a span. *)
Definition keyless_second_item : list event :=
  open_item ++
  [TagOpen "span"; Text (unicode "title: Foo"); TagClose "span";
   TagClose "li"; TagClose "ul";
   TagOpen "ul"; TagOpen "li"; TagOpen "span"; TagOpen "b";
   Text (unicode "more")].

(** One step, one column heading, one list. *)
Definition first_column : list event :=
  open_item ++
  [TagOpen "span"; Text (unicode "title: X"); TagClose "span";
   TagClose "li"; TagClose "ul"].

(** ... followed by a second column heading and its list. *)
Definition second_heading : list event :=
  first_column ++ [TagOpen "h3"; Text (unicode "B"); TagClose "h3"].

Definition second_column : list event :=
  second_heading ++
  [TagOpen "ul"; TagOpen "li";
   TagOpen "span"; Text (unicode "title: Y"); TagClose "span";
   TagClose "li"; TagClose "ul"].

(** ... or by a second step heading and a text nested in a span. *)
Definition second_step : list event :=
  first_column ++ [TagOpen "h2"; Text (unicode "S2"); TagClose "h2"].

Definition after_second_step : list event :=
  second_step ++
  [TagOpen "p"; TagOpen "span"; TagOpen "b"; Text (unicode "more")].

(** A step with a column, and a second step without one. *)
Definition column_then_step : list event :=
  [TagOpen "h2"; Text (unicode "S1"); TagClose "h2";
   TagOpen "h3"; Text (unicode "C"); TagClose "h3";
   TagOpen "h2"; Text (unicode "S2"); TagClose "h2"].

(** A step with a quote block after its heading, and a second one after
    the column heading. *)
Definition quoted_step : list event :=
  [TagOpen "h2"; Text (unicode "Nav"); TagClose "h2";
   TagOpen "blockquote"; Text (unicode "Full title"); TagClose "blockquote";
   TagOpen "h3"; Text (unicode "C"); TagClose "h3";
   TagOpen "blockquote"; Text (unicode "late"); TagClose "blockquote"].

(** A step with a description and nothing else. *)
Definition step_only : list event :=
  [TagOpen "h2"; Text (unicode "S"); TagClose "h2";
   TagOpen "p"; Text (unicode "D"); TagClose "p"].

(** The parser after the events [evs], for streams that do not raise. *)
Definition parser_after (evs : list event) : parser :=
  match feed evs with
  | Ok p => p
  | Raise _ => init
  end.

Definition run_doc (evs : list event) : option document :=
  match feed evs with
  | Ok p => Some (document_of p)
  | Raise _ => None
  end.

(** [items[0][key]] of the first column of the first step of the document
    the events give. *)
Definition first_item (evs : list event) (key : string) : option string :=
  match run_doc evs with
  | Some d => item_at d 0 0 0 key
  | None => None
  end.

(** ** Credentials, the command line and the pipeline *)

#[local] Unset Elimination Schemes.

(** What [json.loads] returns.  Objects are kept as the list of their
    members in iteration order.  A string is a [unicode] object; it is kept
    as its UTF-8 encoding, so it is ASCII exactly when every byte is below
    128. *)
Inductive json : Type :=
  | JNull
  | JBool (b : bool)
  | JNumber (n : Z)
  | JString (s : string)
  | JArray (elements : list json)
  | JObject (members : list (string * json)).

#[local] Set Elimination Schemes.

(** Truth value of a Python object: [None], [False], zero and the empty
    string, list and dictionary are false. *)
Definition truthy (v : json) : bool :=
  match v with
  | JNull => false
  | JBool b => b
  | JNumber n => negb (Z.eqb n 0)
  | JString s => if s is "" then false else true
  | JArray l => if l is [] then false else true
  | JObject m => if m is [] then false else true
  end.

Fixpoint member (key : string) (m : list (string * json)) : option json :=
  match m with
  | [] => None
  | (k, v) :: m' => if decide (k = key) then Some v else member key m'
  end.

(** [v[key]] for a string [key]. *)
Definition subscript (v : json) (key : string) : result json :=
  match v with
  | JObject m =>
      match member key m with
      | Some x => Ok x
      | None => Raise (KeyError key)
      end
  | _ => Raise TypeError
  end.

(** [v.get(key, None)] *)
Definition dict_get (v : json) (key : string) : result json :=
  match v with
  | JObject m => Ok (default JNull (member key m))
  | _ => Raise (AttributeError "get")
  end.

(** [next(iter(v))] for a dictionary [v]: its first key. *)
Definition first_key (v : json) : result json :=
  match v with
  | JObject [] => Raise StopIteration
  | JObject ((k, _) :: _) => Ok (JString k)
  | _ => Raise TypeError
  end.

(** [v is not None] *)
Definition is_not_None (v : json) : bool :=
  match v with
  | JNull => false
  | _ => true
  end.

Definition login_error : string :=
  "You don't seem to be logged in. Set QUIP_TOKEN to an access token or try installing quip-cli and running quip-cli login.".

Definition usage : string :=
  "Pass a document ID as the first argument to this script.".

(** What the script does to the outside world, in order. *)
Inductive io : Type :=
  | GetEnv (name : string)
  | OpenFile (path : string)
  | UrlOpen (url authorization : string)
  | Print (text : string).

(** The outside world: the environment, the parsed content of
    [~/.quiprc] ([None] if it cannot be opened, [Some None] if it is not
    JSON), and the parsed answer of the service to a request. *)
Record world : Type := mk_world {
  environ : gmap string string;
  quiprc : option (option json);
  urlopen : string → string → option (option json)
}.

(** The text is ASCII: every byte is below 128. *)
Definition is_ascii (s : string) : bool :=
  all_chars (λ c, N_of_ascii c <? 128) s.

Section Pipeline.

(** Library functions the script relies on: [str] of a value that is not
    a string, the events [HTMLParser.feed] produces for a text, and
    [yaml.dump(_, default_flow_style=False)]. *)
Variable py_str : json → string.
Variable html_events : string → list event.
Variable yaml_dump : document → string.

(** [str(v)].  On a [unicode] object it encodes with the ASCII codec, and
    raises when a character is not ASCII. *)
Definition str (v : json) : result string :=
  match v with
  | JString s => if is_ascii s then Ok s else Raise UnicodeEncodeError
  | _ => Ok (py_str v)
  end.

(** The part of [get_token] that follows the reading of the file. *)
Definition token_of_config (data : json) : result string :=
  (* config = data["sites"].get("quip.com", None) *)
  do sites <- subscript data "sites";
  do config <- dict_get sites "quip.com";
  do r <-
    (if negb (truthy config) then
       do first_site <- first_key sites;
       do config <-
         (if truthy first_site then
            match first_site with
            | JString k => subscript sites k
            | _ => Raise TypeError
            end
          else Ok config);
       Ok (config, Some first_site)
     else Ok (config, None));
  let '(config, first_site) := r in
  do _ <-
    (if negb (truthy config) then
       (* assert first_site is not None, login_error *)
       do first_site <-
         match first_site with
         | Some v => Ok v
         | None => Raise UnboundLocalError
         end;
       if is_not_None first_site then Ok tt
       else Raise (AssertionError login_error)
     else Ok tt);
  do token <- subscript config "accessToken";
  str token.

(** [get_token()], with what it reads. *)
Definition get_token (w : world) : list io * result string :=
  match environ w !! "QUIP_TOKEN" with
  | Some (String c token) => ([GetEnv "QUIP_TOKEN"], Ok (String c token))
  | _ =>
      ([GetEnv "QUIP_TOKEN"; OpenFile "~/.quiprc"],
       match quiprc w with
       | None => Raise IOError
       | Some None => Raise ValueError
       | Some (Some data) => token_of_config data
       end)
  end.

(** [fetch_doc(threadId)] *)
Definition fetch_doc (threadId : string) (w : world)
    : list io * result json :=
  let url := "https://platform.quip.com/1/threads/" +:+ threadId in
  match get_token w with
  | (tr, Raise e) => (tr, Raise e)
  | (tr, Ok token) =>
      let authorization := "Bearer " +:+ token in
      (tr ++ [UrlOpen url authorization],
       match urlopen w url authorization with
       | None => Raise URLError
       | Some None => Raise ValueError
       | Some (Some data) => Ok data
       end)
  end.

(** [parse_document(doc)] *)
Definition parse_document (doc : json) : result string :=
  do html <- subscript doc "html";
  do p <-
    match html with
    | JString h => feed (html_events h)
    | _ => Raise TypeError
    end;
  Ok (yaml_dump (document_of p)).

(** [main()] *)
Definition main (doc_id : string) (w : world) : list io * result unit :=
  match fetch_doc doc_id w with
  | (tr, Raise e) => (tr, Raise e)
  | (tr, Ok doc_data) =>
      match parse_document doc_data with
      | Raise e => (tr, Raise e)
      | Ok yaml => (tr ++ [Print yaml], Ok tt)
      end
  end.

(** The module-level statements
    [doc_id = sys.argv[1]; assert doc_id, "Pass a document ID ..."]. *)
Definition doc_id (argv : list string) : result string :=
  match argv !! 1%nat with
  | None => Raise IndexError
  | Some "" => Raise (AssertionError usage)
  | Some d => Ok d
  end.

(** The whole script: the module-level statements run first, [main()]
    last. *)
Definition script (argv : list string) (w : world)
    : list io * result unit :=
  match doc_id argv with
  | Raise e => ([], Raise e)
  | Ok d => main d w
  end.

End Pipeline.

(** The exit status of the interpreter: an uncaught exception gives 1. *)
Definition exit_status {A : Type} (r : result A) : nat :=
  match r with
  | Ok _ => 0%nat
  | Raise _ => 1%nat
  end.

(** What the interpreter prints after the traceback of an uncaught
    exception of the kinds the module-level statements can raise. *)
Definition last_line (e : exn) : string :=
  match e with
  | IndexError => "IndexError: list index out of range"
  | AssertionError m => "AssertionError: " +:+ m
  | _ => ""
  end.

(** A [str] that stands for every value that is not a string, for the
    examples. *)
Definition str_opaque (v : json) : string := "<object>".

Definition site (token : string) : json :=
  JObject [("accessToken", JString token)].

Definition config_file (sites : list (string * json)) : option (option json) :=
  Some (Some (JObject [("sites", JObject sites)])).

Definition offline (url authorization : string) : option (option json) := None.


(** [QUIP_TOKEN] is set to a token; there is no file. *)
Definition variable_world : world :=
  mk_world {[ "QUIP_TOKEN" := "secret" ]} None offline.

(** No variable; the file has two sites, [quip.com] second. *)
Definition two_sites : list (string * json) :=
  [("example.com", site "first"); ("quip.com", site "abc")].

Definition two_sites_world : world :=
  mk_world ∅ (config_file two_sites) offline.




(** Nothing is set up: no variable, no file. *)
Definition bare_world : world := mk_world ∅ None offline.

(** ** Reachable parsers *)

(** The reference of the object allocated last. *)
Definition last_ref {A : Type} (h : list A) : option ref :=
  match length h with
  | O => None
  | S n => Some n
  end.

(** A list-valued key, when present, holds a non-empty list of references
    into a store of [n] objects. *)
Definition refs_ok (n : nat) (o : option (list ref)) : Prop :=
  ∀ l, o = Some l → l ≠ [] ∧ Forall (λ r, (r < n)%nat) l.

(** What holds of every parser that [feed] can reach. *)
Record wf (p : parser) : Prop := mk_wf {
  wf_steps :
    Output.steps (output p) = Some (seq 0 (length (step_store p)));
  wf_current_step : current_step p = last_ref (step_store p);
  wf_current_column : current_column p = last_ref (column_store p);
  wf_current_item : current_item p = last_ref (item_store p);
  wf_step_mode : state p ≠ title_mode → step_store p ≠ [];
  wf_column_mode :
    state p = column_mode ∨ state p = item_mode → column_store p ≠ [];
  wf_item_mode : state p = item_mode → item_store p ≠ [];
  wf_columns :
    Forall (λ st, refs_ok (length (column_store p)) (Step.columns st))
      (step_store p);
  wf_items :
    Forall (λ col, refs_ok (length (item_store p)) (Column.items col))
      (column_store p)
}.

(** The (navtitle, title) pairs of the steps created so far. *)
Definition titles (p : parser) : list (string * string) :=
  (λ st, (Step.navtitle st, Step.title st)) <$> step_store p.

(** A text that arrives now takes the [elif] branch of [handle_data]: a
    [span] is open, and the text is not that of an innermost [span] in
    Item mode. *)
Definition on_continuation_path (p : parser) : Prop :=
  ∃ tag,
    last (current_tags p) = Some tag ∧
    ¬ (tag = "span" ∧ state p = item_mode) ∧ "span" ∈ current_tags p.

(** The [elif] branch has what it needs: the current item has a value
    under the current key. *)
Definition continuation_ready (p : parser) : Prop :=
  ∃ it k old,
    the_item p = Some it ∧ current_key p = Some k ∧ it !! k = Some old.

(** [handle_data] by cases on the innermost tag: the branches that can
    run before the last [if], and the last [if] with its [elif]. *)
Definition before_span (tag data : string) (p : parser) : result parser :=
  if decide (tag = "h1") then
    if decide (state p = title_mode) then data_h1 data p else Ok p
  else if decide (tag = "p") then
    if decide (state p = title_mode) then data_p_title data p
    else if decide (state p = step_mode) then data_p_step data p
    else Ok p
  else if decide (tag = "h2") then data_h2 data p
  else if decide (tag = "blockquote") then
    if decide (state p = step_mode) then data_blockquote data p else Ok p
  else if decide (tag = "h3") then
    if decide (state p = step_mode) then data_h3 data p else Ok p
  else Ok p.

Definition span_or_continuation (tag data : string) (p : parser)
    : result parser :=
  if bool_decide (tag = "span" ∧ state p = item_mode) then data_span data p
  else if bool_decide ("span" ∈ current_tags p) then data_continuation data p
  else Ok p.

(** What the branches before the last [if] do to a reachable parser, as a
    relation: one rule per branch, and one for a text that none of them
    takes. *)
Inductive before_span_step (data : string)
    : string → parser → parser → Prop :=
  | step_h1 p :
      state p = title_mode →
      before_span_step data "h1" p
        (set_output
           (Output.mk data (Output.description (output p))
              (Output.steps (output p)))
           (set_defining_steps false p))
  | step_p_title p :
      state p = title_mode →
      before_span_step data "p" p
        (set_output
           (Output.mk (Output.title (output p))
              (Output.description (output p) +:+ data +:+ newline)
              (Output.steps (output p))) p)
  | step_h2 p :
      before_span_step data "h2" p
        (set_output
           (Output.mk (Output.title (output p))
              (Output.description (output p)) (Some (seq 0 (S (length (step_store p))))))
           (set_current_step (length (step_store p))
              (set_step_store (step_store p ++ [Step.mk data data None None])
                 (set_state step_mode p))))
  | step_blockquote p ss st :
      state p = step_mode →
      step_store p = ss ++ [st] →
      before_span_step data "blockquote" p
        (set_step_store
           (ss ++ [Step.mk (Step.navtitle st) data (Step.description st)
                     (Step.columns st)]) p)
  | step_p_step p ss st :
      state p = step_mode →
      step_store p = ss ++ [st] →
      before_span_step data "p" p
        (set_step_store
           (ss ++ [Step.mk (Step.navtitle st) (Step.title st)
                     (Some (default "" (Step.description st)
                            +:+ data +:+ newline))
                     (Step.columns st)]) p)
  | step_h3 p ss st :
      state p = step_mode →
      step_store p = ss ++ [st] →
      before_span_step data "h3" p
        (set_step_store
           (ss ++ [Step.mk (Step.navtitle st) (Step.title st)
                     (Step.description st)
                     (Some (default [] (Step.columns st)
                            ++ [length (column_store p)]))])
           (set_current_column (length (column_store p))
              (set_column_store (column_store p ++ [Column.mk data None])
                 (set_state column_mode p))))
  | step_idle tag p :
      tag ≠ "h2" →
      (tag = "h1" → state p ≠ title_mode) →
      (tag = "p" → state p ≠ title_mode ∧ state p ≠ step_mode) →
      (tag = "blockquote" → state p ≠ step_mode) →
      (tag = "h3" → state p ≠ step_mode) →
      before_span_step data tag p p.

(** ** More descriptions of event streams and documents *)

Global Instance event_eq_dec : EqDecision event.
Proof. solve_decision. Defined.

(** The open-tag stack after the events [evs]: an end tag removes the
    innermost open tag, whatever its name. *)
Definition open_tags (evs : list event) : list string :=
  foldl (λ tags e, tags_after e tags) [] evs.

(** Each text followed by a newline, all in one string. *)
Fixpoint lines (texts : list string) : string :=
  match texts with
  | [] => ""
  | t :: texts' => t +:+ newline +:+ lines texts'
  end.

(** No branch of [handle_data] takes a text that arrives now: no tag is
    open, or no span is open and the innermost tag is not one that the
    current mode looks for. *)
Definition text_is_ignored (p : parser) : Prop :=
  match last (current_tags p) with
  | None => True
  | Some tag =>
      ("span" ∉ current_tags p) ∧ (tag ≠ "h2") ∧
      (tag = "h1" → state p ≠ title_mode) ∧
      (tag = "p" → state p ≠ title_mode ∧ state p ≠ step_mode) ∧
      (tag = "blockquote" → state p ≠ step_mode) ∧
      (tag = "h3" → state p ≠ step_mode)
  end.

(** Apply [f] to the last element of a list. *)
Definition update_last {A : Type} (f : A → A) (l : list A) : list A :=
  match last l with
  | Some x => removelast l ++ [f x]
  | None => l
  end.

(** For each step of a document, read off the event stream: its
    description (the paragraph texts that arrive between the step's heading
    and its first level-3 heading text, each followed by a newline; none if
    there is no such text) and the title of its column (the first level-3
    heading text after the step's heading; none if there is none).
    [in_step] says whether the last step has had no level-3 heading text
    yet. *)
Fixpoint expected_outline_from (tags : list string) (in_step : bool)
    (acc : list (option string * option string)) (evs : list event)
    : list (option string * option string) :=
  match evs with
  | [] => acc
  | Text raw :: evs' =>
      let d := encode_utf8 raw in
      if decide (last tags = Some "h2") then
        expected_outline_from tags true (acc ++ [(None, None)]) evs'
      else if decide (last tags = Some "p") then
        expected_outline_from tags in_step
          (if in_step
           then update_last
                  (λ s, (Some (default "" s.1 +:+ d +:+ newline), s.2)) acc
           else acc) evs'
      else if decide (last tags = Some "h3") then
        expected_outline_from tags false
          (if in_step then update_last (λ s, (s.1, Some d)) acc else acc) evs'
      else expected_outline_from tags in_step acc evs'
  | e :: evs' => expected_outline_from (tags_after e tags) in_step acc evs'
  end.

Definition expected_outline (evs : list event)
    : list (option string * option string) :=
  expected_outline_from [] false [] evs.

(** For each step of a document, the level-3 heading texts that arrive
    between the step's level-2 heading text and the next one. *)
Fixpoint h3_texts_by_step_from (tags : list string)
    (acc : list (list string)) (evs : list event) : list (list string) :=
  match evs with
  | [] => acc
  | Text raw :: evs' =>
      let d := encode_utf8 raw in
      if decide (last tags = Some "h2") then
        h3_texts_by_step_from tags (acc ++ [[]]) evs'
      else if decide (last tags = Some "h3") then
        h3_texts_by_step_from tags (update_last (λ l, l ++ [d]) acc) evs'
      else h3_texts_by_step_from tags acc evs'
  | e :: evs' => h3_texts_by_step_from (tags_after e tags) acc evs'
  end.

Definition h3_texts_by_step (evs : list event) : list (list string) :=
  h3_texts_by_step_from [] [] evs.

(** The items of all the columns of a document, in document order. *)
Definition items_in (d : document) : list item :=
  columns_in d ≫= λ c, default [] (column_items c).

(** The mode after a text whose innermost tag is [tag]. *)
Definition mode_after_text (tag : string) (m : mode) : mode :=
  if decide (tag = "h2") then step_mode
  else if decide (tag = "h3" ∧ m = step_mode) then column_mode
  else m.

(** The number of lists that are opened after the column heading of their
    step (in Column or Item mode); [m] is the mode at the start of [evs]. *)
Fixpoint opened_lists_from (tags : list string) (m : mode)
    (evs : list event) : nat :=
  match evs with
  | [] => 0
  | TagOpen tag :: evs' =>
      if decide (tag = "ul" ∧ (m = column_mode ∨ m = item_mode))
      then S (opened_lists_from (tags ++ [tag]) item_mode evs')
      else opened_lists_from (tags ++ [tag]) m evs'
  | TagClose _ :: evs' => opened_lists_from (removelast tags) m evs'
  | Text _ :: evs' =>
      match last tags with
      | None => opened_lists_from tags m evs'
      | Some tag => opened_lists_from tags (mode_after_text tag m) evs'
      end
  end.

Definition opened_lists (evs : list event) : nat :=
  opened_lists_from [] title_mode evs.

(** An entry of [expected_outline] in the shape of [outline_of]: a step
    with a column has exactly that one. *)
Definition lift_outline (s : option string * option string)
    : option string * option (list string) :=
  (s.1, (λ t, [t]) <$> s.2).

(** The titles of the columns of a step of a document. *)
Definition column_titles (s : step) : option (list string) :=
  match step_columns s with
  | Some cols => Some (column_title <$> cols)
  | None => None
  end.

(** The number of items of each column, in the order of the columns. *)
Definition item_counts (p : parser) : list nat :=
  (λ col, length (default [] (Column.items col))) <$> column_store p.

(** The number of items of each column of a document, read off the event
    stream: a level-3 heading text in Step mode starts a column, and a list
    that is opened in Column or Item mode adds an item to the column that
    was started last, in whatever step. *)
Fixpoint expected_item_counts_from (tags : list string) (m : mode)
    (acc : list nat) (evs : list event) : list nat :=
  match evs with
  | [] => acc
  | TagOpen tag :: evs' =>
      if decide (tag = "ul" ∧ (m = column_mode ∨ m = item_mode))
      then expected_item_counts_from (tags ++ [tag]) item_mode
             (update_last S acc) evs'
      else expected_item_counts_from (tags ++ [tag]) m acc evs'
  | TagClose _ :: evs' => expected_item_counts_from (removelast tags) m acc evs'
  | Text _ :: evs' =>
      match last tags with
      | None => expected_item_counts_from tags m acc evs'
      | Some tag =>
          expected_item_counts_from tags (mode_after_text tag m)
            (if decide (tag = "h3" ∧ m = step_mode) then acc ++ [0%nat]
             else acc) evs'
      end
  end.

Definition expected_item_counts (evs : list event) : list nat :=
  expected_item_counts_from [] title_mode [] evs.

(** [item[key] += d], for a key that is set. *)
Definition append_to (key : option string) (d : string) (it : item) : item :=
  match key with
  | Some k => <[k := default "" (it !! k) +:+ d]> it
  | None => it
  end.

(** What a text [d] with innermost tag [tag] does to the current key and
    to the items created so far, in mode [m] with the tags [tags] open: a
    span text in Item mode that matches the pattern sets a key of the item
    created last; a text below an open span, other than a span text in
    Item mode, is appended to the value of the current key in that item. *)
Definition items_after_text (tag d : string) (tags : list string) (m : mode)
    (key : option string) (acc : list item) : option string * list item :=
  if decide (tag = "span" ∧ m = item_mode) then
    match item_regex_match d with
    | Some (g1, g2) =>
        (Some (strip g1), update_last (<[strip g1 := strip g2]>) acc)
    | None => (key, acc)
    end
  else if decide ("span" ∈ tags) then (key, update_last (append_to key d) acc)
  else (key, acc).

(** The items of a document in the order of their creation, read off the
    event stream. *)
Fixpoint expected_items_from (tags : list string) (m : mode)
    (key : option string) (acc : list item) (evs : list event) : list item :=
  match evs with
  | [] => acc
  | TagOpen tag :: evs' =>
      if decide (tag = "ul" ∧ (m = column_mode ∨ m = item_mode))
      then expected_items_from (tags ++ [tag]) item_mode key (acc ++ [∅]) evs'
      else expected_items_from (tags ++ [tag]) m key acc evs'
  | TagClose _ :: evs' => expected_items_from (removelast tags) m key acc evs'
  | Text raw :: evs' =>
      match last tags with
      | None => expected_items_from tags m key acc evs'
      | Some tag =>
          let r := items_after_text tag (encode_utf8 raw) tags m key acc in
          expected_items_from tags (mode_after_text tag m) r.1 r.2 evs'
      end
  end.

Definition expected_items (evs : list event) : list item :=
  expected_items_from [] title_mode None [] evs.

(** [data] can be read as a key, a colon and a value of the pattern
    [(\w+):(.+)] followed by anything: [k] is in [\w+] and [v] in [.+].
    Nothing is said of which reading the matcher takes. *)
Definition reads_as (data k v : string) : Prop :=
  ∃ rest,
    data = k +:+ ":" +:+ v +:+ rest ∧
    k ≠ "" ∧ all_chars is_word k = true ∧
    v ≠ "" ∧ all_chars is_dot v = true.

(** The bytes of a string, as numbers. *)
Definition bytes (s : string) : list N :=
  N_of_ascii <$> String.list_ascii_of_string s.

(** The references that the steps hold to columns, and the columns to
    items, in the order of the lists that hold them. *)
Definition column_refs (p : parser) : list ref :=
  step_store p ≫= λ st, default [] (Step.columns st).

Definition item_refs (p : parser) : list ref :=
  column_store p ≫= λ col, default [] (Column.items col).

(** Every column and every item that was created is listed once, in the
    order of creation. *)
Definition owned (p : parser) : Prop :=
  column_refs p = seq 0 (length (column_store p)) ∧
  item_refs p = seq 0 (length (item_store p)).

(** A key of an item: a non-empty run of word characters. *)
Definition is_key (k : string) : Prop :=
  k ≠ "" ∧ all_chars is_word k = true.

(** Every key of every item of a list is one. *)
Definition keys_ok (its : list item) : Prop :=
  Forall (λ it : item, ∀ k v, it !! k = Some v → is_key k) its.

(** The (description, column title) of each step of the store. *)
Definition outline_of (p : parser) (st : Step.t)
    : option string * option (list string) :=
  (Step.description st,
   match Step.columns st with
   | Some cols =>
       Some (omap (M := list)
               (λ c, match column_store p !! c with
                     | Some col => Some (Column.title col)
                     | None => None
                     end) cols)
   | None => None
   end).

(** * Properties *)

(** ** The error monad *)

Lemma bind_Ok {A B : Type} (m : result A) (f : A → result B) (b : B) :
  bind m f = Ok b ↔ ∃ a, m = Ok a ∧ f a = Ok b.
Proof.
  destruct m as [a|e]; simpl; split.
  - intros H. exists a. auto.
  - intros (a' & Ha & H). congruence.
  - discriminate.
  - intros (a' & Ha & _). discriminate.
Qed.

Lemma bind_Raise {A B : Type} (m : result A) (f : A → result B) (e : exn) :
  bind m f = Raise e ↔ m = Raise e ∨ ∃ a, m = Ok a ∧ f a = Raise e.
Proof.
  destruct m as [a|e']; simpl; split.
  - intros H. right. exists a. auto.
  - intros [H|(a' & Ha & H)]; congruence.
  - intros H. left. congruence.
  - intros [H|(a' & Ha & _)]; congruence.
Qed.


(** ** The item pattern *)

Lemma append_nil (s : string) : "" +:+ s = s.
Proof. reflexivity. Qed.

Lemma append_cons (c : ascii) (a b : string) :
  String c a +:+ b = String c (a +:+ b).
Proof. reflexivity. Qed.

Lemma span_of_spec (f : ascii → bool) (s a b : string) :
  span_of f s = (a, b) ↔
  s = a +:+ b ∧ all_chars f a = true ∧ stops f b.
Proof.
  revert a b. induction s as [|c s IH]; intros a b; simpl.
  - split.
    + by intros [= <- <-].
    + intros (E & _ & _). destruct a; [|discriminate].
      rewrite append_nil in E. by subst.
  - destruct (f c) eqn:Ec.
    + destruct (span_of f s) as [a' b'] eqn:Es. split.
      * intros [= <- <-]. destruct (proj1 (IH a' b') eq_refl) as (-> & Ha & Hb).
        rewrite append_cons. simpl. by rewrite Ec.
      * intros (E & Ha & Hb). destruct a as [|c' a].
        { rewrite append_nil in E. subst b. simpl in Hb. congruence. }
        rewrite append_cons in E. injection E as <- E. simpl in Ha.
        apply andb_true_iff in Ha as [_ Ha].
        assert ((a', b') = (a, b)) as [= -> ->]; [|done].
        by apply IH.
    + split.
      * intros [= <- <-]. done.
      * intros (E & Ha & Hb). destruct a as [|c' a].
        { rewrite append_nil in E. by subst. }
        rewrite append_cons in E. injection E as <- E. simpl in Ha.
        rewrite Ec in Ha. discriminate.
Qed.

(** The matcher computes exactly the match the pattern describes. *)
Lemma item_regex_match_spec (data k v : string) :
  item_regex_match data = Some (k, v) ↔ matches_item_pattern data k v.
Proof.
  unfold item_regex_match, matches_item_pattern. split.
  - destruct (span_of is_word data) as [a b] eqn:Ea.
    apply span_of_spec in Ea as (-> & Ha & Hb).
    destruct a as [|c a]; [done|].
    destruct b as [|c' b]; [done|].
    destruct (decide (c' = ":"%char)) as [->|Hne].
    2:{ destruct c' as [[] [] [] [] [] [] [] []]; try done. }
    destruct (span_of is_dot b) as [v' rest] eqn:Ev. simpl.
    apply span_of_spec in Ev as (-> & Hv & Hrest).
    destruct v' as [|d v']; [done|]. intros [= <- <-].
    exists rest. done.
  - intros (rest & -> & Hk & Hw & Hv & Hd & Hrest).
    assert (span_of is_word (k +:+ ":" +:+ v +:+ rest)
            = (k, String ":" (v +:+ rest))) as ->.
    { apply span_of_spec. done. }
    destruct k as [|c k]; [done|]. simpl.
    assert (span_of is_dot (v +:+ rest) = (v, rest)) as ->.
    { apply span_of_spec. done. }
    simpl. by destruct v.
Qed.

Example item_regex_match_examples :
  item_regex_match "title: Foo" = Some ("title", " Foo") ∧
  item_regex_match " Bar" = None ∧
  item_regex_match "url:" = None ∧
  item_regex_match "a:b:c" = Some ("a", "b:c") ∧
  item_regex_match "my key: x" = None ∧
  strip " Foo " = "Foo".
Proof. split_and!; reflexivity. Qed.

(** ** Lists used as stores *)

Lemma last_ref_snoc {A : Type} (l : list A) (x : A) :
  last_ref (l ++ [x]) = Some (length l).
Proof. unfold last_ref. by rewrite length_app, Nat.add_1_r. Qed.

Lemma snoc_view {A : Type} (l : list A) :
  l ≠ [] → ∃ l' x, l = l' ++ [x].
Proof.
  intros H. destruct (exists_last H) as (l' & x & ->). eauto.
Qed.

Lemma insert_snoc {A : Type} (l : list A) (x y : A) :
  <[length l := y]> (l ++ [x]) = l ++ [y].
Proof.
  rewrite insert_app_r_alt by lia. rewrite Nat.sub_diag. done.
Qed.

Lemma lookup_snoc {A : Type} (l : list A) (x : A) :
  (l ++ [x]) !! length l = Some x.
Proof. rewrite lookup_app_r by lia. rewrite Nat.sub_diag. done. Qed.

(** ** [handle_data], one innermost tag at a time *)

Ltac tag_tests :=
  repeat match goal with
  | |- context [bool_decide (?a = ?b ∧ ?Q)] =>
      rewrite (bool_decide_and (a = b) Q)
  | H : ?t ≠ ?s |- context [bool_decide (?t = ?s)] =>
      rewrite (bool_decide_eq_false_2 (t = s) H)
  end.

(** The seven [if]s of [handle_data] test one and the same tag, so at most
    one of the first six runs, and it is followed by the last one. *)
Lemma handle_data_dispatch (raw : list N) (p : parser) :
  handle_data raw p =
  match last (current_tags p) with
  | None => Ok p
  | Some tag =>
      do q <- before_span tag (encode_utf8 raw) p;
      span_or_continuation tag (encode_utf8 raw) q
  end.
Proof.
  unfold handle_data, before_span, span_or_continuation.
  destruct (last (current_tags p)) as [tag|]; [|reflexivity].
  destruct p as [o tags st ds cs cc ci ck ss cos is_].
  cbn [state current_tags].
  repeat (case_decide; subst; tag_tests);
    repeat match goal with
    | |- context [decide (?a = ?b)] => destruct (decide (a = b))
    end; try congruence; try reflexivity.
  all: destruct st; try congruence; reflexivity.
Qed.

(** Outside Title mode the current step is the last one of the store. *)
Lemma wf_last_step (p : parser) :
  wf p → state p ≠ title_mode →
  ∃ ss st, step_store p = ss ++ [st] ∧ current_step p = Some (length ss).
Proof.
  intros Hwf Hm.
  destruct (snoc_view (step_store p)) as (ss & st & E).
  { by apply wf_step_mode. }
  exists ss, st. split; [done|].
  rewrite (wf_current_step _ Hwf), E. apply last_ref_snoc.
Qed.

(** On a reachable parser the first six branches never raise, and do what
    [before_span_step] says. *)
Lemma before_span_steps (tag data : string) (p : parser) :
  wf p → ∃ q, before_span tag data p = Ok q ∧ before_span_step data tag p q.
Proof.
  intros Hwf. unfold before_span.
  repeat case_decide; subst; try discriminate;
    try (exists p; split; [reflexivity|];
         apply step_idle; intros; simplify_eq; done);
    try (destruct (wf_last_step p) as (ss & st & E & Ec);
         [done|congruence|]).
  - eexists; split; cycle 1. { by apply step_h1. } reflexivity.
  - eexists; split; cycle 1. { by apply step_p_title. } reflexivity.
  - eexists; split; cycle 1. { by apply (step_p_step data p ss st). }
    unfold data_p_step, deref. rewrite Ec, E. simpl.
    rewrite lookup_snoc. simpl. rewrite insert_snoc.
    by destruct (Step.description st) as [[|]|].
  - eexists; split; cycle 1. { apply step_h2. }
    unfold data_h2. cbn -[seq]. rewrite (wf_steps _ Hwf). cbn -[seq].
    by rewrite seq_S.
  - eexists; split; cycle 1. { by apply (step_blockquote data p ss st). }
    unfold data_blockquote, deref. rewrite Ec, E. simpl.
    rewrite lookup_snoc. simpl. by rewrite insert_snoc.
  - eexists; split; cycle 1. { by apply (step_h3 data p ss st). }
    unfold data_h3, deref. simpl. rewrite Ec, E. simpl.
    rewrite lookup_snoc. simpl. rewrite insert_snoc.
    by destruct (Step.columns st) as [[|]|].
Qed.

(** ** Reachable parsers stay well formed *)

Lemma refs_ok_mono (n m : nat) (o : option (list ref)) :
  (n ≤ m)%nat → refs_ok n o → refs_ok m o.
Proof.
  intros Hle H l E. destruct (H l E) as [Hne Hall]. split; [done|].
  eapply Forall_impl; [exact Hall|]. simpl. lia.
Qed.

Lemma refs_ok_None (n : nat) : refs_ok n None.
Proof. intros l E. discriminate. Qed.

Lemma refs_ok_snoc (n : nat) (o : option (list ref)) :
  refs_ok n o → refs_ok (S n) (Some (default [] o ++ [n])).
Proof.
  intros H l E. injection E as <-. split.
  - by destruct (default [] o).
  - apply Forall_app. split; [|repeat constructor].
    destruct o as [l|]; simpl; [|constructor].
    destruct (H l eq_refl) as [_ Hall].
    eapply Forall_impl; [exact Hall|]. simpl. lia.
Qed.

Lemma last_ref_length {A B : Type} (l : list A) (k : list B) :
  length l = length k → last_ref l = last_ref k.
Proof. unfold last_ref. by intros ->. Qed.

Lemma snoc_not_nil {A : Type} (l : list A) (x : A) : l ++ [x] ≠ [].
Proof. by destruct l. Qed.

Lemma Forall_snoc_change {A : Type} (P Q : A → Prop) (l : list A) (x y : A) :
  Forall P (l ++ [x]) → (∀ a, P a → Q a) → (P x → Q y) →
  Forall Q (l ++ [y]).
Proof.
  intros H Himp Hxy. apply Forall_app in H as [Ha Hb].
  apply Forall_app. split.
  - eapply Forall_impl; [exact Ha|exact Himp].
  - apply Forall_singleton. apply Hxy. by apply Forall_singleton.
Qed.

(** Every branch keeps the parser well formed. *)
Lemma before_span_step_wf (data tag : string) (p q : parser) :
  wf p → before_span_step data tag p q → wf q.
Proof.
  intros [H1 H2 H3 H4 H5 H6 H7 H8 H9] Hstep.
  destruct Hstep as [p Hm|p Hm|p|p ss st Hm E|p ss st Hm E|p ss st Hm E|].
  all: split; simpl; try done.
  all: try (intros _; apply snoc_not_nil);
    try (subst; by rewrite last_ref_snoc);
    try (rewrite H2, E; by rewrite !last_ref_snoc);
    try (rewrite H1, E; by rewrite !length_app);
    try by rewrite length_app, Nat.add_1_r.
  - intros [?|?]; discriminate.
  - apply Forall_app. split; [done|]. apply Forall_singleton, refs_ok_None.
  - rewrite E in H8. eapply Forall_snoc_change; [exact H8|done|done].
  - rewrite E in H8. eapply Forall_snoc_change; [exact H8|done|done].
  - rewrite E in H8. rewrite length_app, Nat.add_1_r.
    eapply Forall_snoc_change; [exact H8| |].
    + intros x. apply refs_ok_mono. lia.
    + simpl. apply refs_ok_snoc.
  - apply Forall_app. split; [done|]. apply Forall_singleton, refs_ok_None.
Qed.

(** The first six branches leave the tags and the items alone, and change
    the mode at a level-2 heading and at the first level-3 heading of a
    step only. *)
Lemma before_span_step_frame (data tag : string) (p q : parser) :
  before_span_step data tag p q →
  current_tags q = current_tags p ∧ current_item q = current_item p ∧
  current_key q = current_key p ∧ item_store q = item_store p.
Proof. by intros []. Qed.

Lemma before_span_step_state (data tag : string) (p q : parser) :
  before_span_step data tag p q →
  state q =
    if decide (tag = "h2") then step_mode
    else if decide (tag = "h3" ∧ state p = step_mode) then column_mode
    else state p.
Proof.
  intros []; simpl; try done.
  - rewrite decide_True by done. done.
  - rewrite decide_False by done. rewrite decide_False by tauto. done.
Qed.

Lemma wf_last_column (p : parser) :
  wf p → state p = column_mode ∨ state p = item_mode →
  ∃ cos col,
    column_store p = cos ++ [col] ∧ current_column p = Some (length cos).
Proof.
  intros Hwf Hm.
  destruct (snoc_view (column_store p)) as (cos & col & E).
  { by apply wf_column_mode. }
  exists cos, col. split; [done|].
  rewrite (wf_current_column _ Hwf), E. apply last_ref_snoc.
Qed.

Lemma wf_last_item (p : parser) :
  wf p → state p = item_mode →
  ∃ its it, item_store p = its ++ [it] ∧ current_item p = Some (length its).
Proof.
  intros Hwf Hm.
  destruct (snoc_view (item_store p)) as (its & it & E).
  { by apply wf_item_mode. }
  exists its, it. split; [done|].
  rewrite (wf_current_item _ Hwf), E. apply last_ref_snoc.
Qed.

Lemma wf_set_items (p : parser) (its : list item) :
  wf p → length its = length (item_store p) → wf (set_item_store its p).
Proof.
  intros [H1 H2 H3 H4 H5 H6 H7 H8 H9] Hlen. split; simpl; try done.
  - rewrite H4. by apply last_ref_length.
  - intros Hm Hnil. apply (H7 Hm). destruct (item_store p); [done|].
    by rewrite Hnil in Hlen.
  - by rewrite Hlen.
Qed.

Lemma wf_set_key (p : parser) (k : string) : wf p → wf (set_current_key k p).
Proof. intros []. by split. Qed.

Lemma wf_set_tags (p : parser) (tags : list string) :
  wf p → wf (set_current_tags tags p).
Proof. intros []. by split. Qed.

(** An item assignment through [self.current_item] keeps the parser well
    formed, whatever the branch. *)
Lemma data_span_wf (data : string) (p q : parser) :
  wf p → data_span data p = Ok q → wf q.
Proof.
  intros Hwf. unfold data_span.
  destruct (item_regex_match data) as [[g1 g2]|]; [|by intros [= <-]].
  intros H. apply bind_Ok in H as (i & _ & H).
  apply bind_Ok in H as (it & _ & H). injection H as <-.
  apply wf_set_items; [by apply wf_set_key|]. simpl. apply length_insert.
Qed.

Lemma data_continuation_wf (data : string) (p q : parser) :
  wf p → data_continuation data p = Ok q → wf q.
Proof.
  intros Hwf. unfold data_continuation. intros H.
  apply bind_Ok in H as (i & _ & H). apply bind_Ok in H as (k & _ & H).
  apply bind_Ok in H as (it & _ & H). apply bind_Ok in H as (old & _ & H).
  injection H as <-. apply wf_set_items; [done|]. apply length_insert.
Qed.

Lemma span_or_continuation_wf (tag data : string) (p q : parser) :
  wf p → span_or_continuation tag data p = Ok q → wf q.
Proof.
  intros Hwf. unfold span_or_continuation.
  repeat case_bool_decide; eauto using data_span_wf, data_continuation_wf.
  by intros [= <-].
Qed.

(** The last [if] only writes the current key and the item store. *)
Lemma span_or_continuation_frame (tag data : string) (p q : parser) :
  span_or_continuation tag data p = Ok q →
  output q = output p ∧ current_tags q = current_tags p ∧
  state q = state p ∧ current_step q = current_step p ∧
  current_column q = current_column p ∧ current_item q = current_item p ∧
  step_store q = step_store p ∧ column_store q = column_store p ∧
  length (item_store q) = length (item_store p).
Proof.
  unfold span_or_continuation, data_span, data_continuation.
  repeat case_bool_decide; try by intros [= <-].
  - destruct (item_regex_match data) as [[g1 g2]|]; [|by intros [= <-]].
    intros Hq. apply bind_Ok in Hq as (i & _ & Hq).
    apply bind_Ok in Hq as (it & _ & Hq). injection Hq as <-. simpl.
    by rewrite length_insert.
  - intros Hq.
    apply bind_Ok in Hq as (i & _ & Hq). apply bind_Ok in Hq as (k & _ & Hq).
    apply bind_Ok in Hq as (it & _ & Hq).
    apply bind_Ok in Hq as (old & _ & Hq).
    injection Hq as <-. simpl. by rewrite length_insert.
Qed.

(** [handle_starttag] on a reachable parser. *)
Lemma handle_starttag_ul (p : parser) :
  wf p → state p = column_mode ∨ state p = item_mode →
  ∃ cos col,
    column_store p = cos ++ [col] ∧
    handle_starttag "ul" p =
    Ok (set_column_store
          (cos ++ [Column.mk (Column.title col)
                     (Some (default [] (Column.items col)
                            ++ [length (item_store p)]))])
          (set_current_item (length (item_store p))
             (set_item_store (item_store p ++ [∅])
                (set_state item_mode
                   (set_current_tags (current_tags p ++ ["ul"]) p))))).
Proof.
  intros Hwf Hm. destruct (wf_last_column p Hwf Hm) as (cos & col & E & Ec).
  exists cos, col. split; [done|]. unfold handle_starttag, deref.
  rewrite bool_decide_eq_true_2 by (simpl; tauto). simpl.
  rewrite Ec, E. simpl. rewrite lookup_snoc. simpl.
  destruct col as [t [[|]|]]; simpl; by rewrite insert_snoc.
Qed.

Lemma handle_starttag_other (tag : string) (p : parser) :
  ¬ (tag = "ul" ∧ (state p = column_mode ∨ state p = item_mode)) →
  handle_starttag tag p = Ok (set_current_tags (current_tags p ++ [tag]) p).
Proof.
  intros H. unfold handle_starttag. by rewrite bool_decide_eq_false_2.
Qed.

Lemma handle_starttag_ok (tag : string) (p : parser) :
  wf p →
  ∃ q, handle_starttag tag p = Ok q ∧ wf q ∧
       current_tags q = current_tags p ++ [tag] ∧
       output q = output p ∧ step_store q = step_store p ∧
       current_key q = current_key p.
Proof.
  intros Hwf.
  destruct (decide (tag = "ul" ∧ (state p = column_mode ∨ state p = item_mode)))
    as [[-> Hm]|Hno].
  - destruct (handle_starttag_ul p Hwf Hm) as (cos & col & E & ->).
    eexists. split; [done|]. split; [|done].
    destruct Hwf as [H1 H2 H3 H4 H5 H6 H7 H8 H9]. split; simpl; try done.
    + rewrite H3, E. by rewrite !last_ref_snoc.
    + by rewrite last_ref_snoc.
    + intros _ Hnil. apply H5; [|done]. destruct Hm as [Hm|Hm]; by rewrite Hm.
    + intros _. apply snoc_not_nil.
    + intros _. apply snoc_not_nil.
    + eapply Forall_impl; [exact H8|]. intros st. simpl.
      rewrite E, !length_app. done.
    + rewrite E in H9. rewrite length_app, Nat.add_1_r.
      eapply Forall_snoc_change; [exact H9| |].
      * intros x. apply refs_ok_mono. lia.
      * simpl. apply refs_ok_snoc.
  - rewrite handle_starttag_other by done. eexists. split; [done|].
    split; [by apply wf_set_tags|done].
Qed.

(** ** One event on a reachable parser *)

(** A text that is handled went through one step of [before_span_step]
    and then through the last [if]; a text that raises did so in the last
    [if]. *)
Lemma handle_data_Ok (raw : list N) (p q' : parser) :
  wf p → handle_data raw p = Ok q' →
  (last (current_tags p) = None ∧ q' = p) ∨
  ∃ tag q,
    last (current_tags p) = Some tag ∧
    before_span_step (encode_utf8 raw) tag p q ∧
    span_or_continuation tag (encode_utf8 raw) q = Ok q'.
Proof.
  intros Hwf. rewrite handle_data_dispatch.
  destruct (last (current_tags p)) as [tag|]; [|intros [= <-]; by left].
  destruct (before_span_steps tag (encode_utf8 raw) p Hwf) as (q & -> & Hq).
  simpl. intros H. right. by exists tag, q.
Qed.

Lemma handle_data_Raise (raw : list N) (p : parser) (e : exn) :
  wf p → handle_data raw p = Raise e →
  ∃ tag q,
    last (current_tags p) = Some tag ∧
    before_span_step (encode_utf8 raw) tag p q ∧
    span_or_continuation tag (encode_utf8 raw) q = Raise e.
Proof.
  intros Hwf. rewrite handle_data_dispatch.
  destruct (last (current_tags p)) as [tag|]; [|discriminate].
  destruct (before_span_steps tag (encode_utf8 raw) p Hwf) as (q & -> & Hq).
  simpl. intros H. by exists tag, q.
Qed.

Lemma init_wf : wf init.
Proof.
  split; simpl; try done. intros [?|?]; discriminate.
Qed.

Lemma handle_wf (e : event) (p q : parser) :
  wf p → handle e p = Ok q → wf q.
Proof.
  intros Hwf. destruct e as [tag|tag|raw]; simpl.
  - destruct (handle_starttag_ok tag p Hwf) as (q' & -> & Hq & _).
    by intros [= <-].
  - unfold handle_endtag. destruct (current_tags p); [discriminate|].
    intros [= <-]. by apply wf_set_tags.
  - intros H.
    destruct (handle_data_Ok raw p q Hwf H) as [[_ ->]|(tag & q' & _ & Hs & H')];
      [done|].
    eapply span_or_continuation_wf; [|exact H'].
    by eapply before_span_step_wf.
Qed.

Lemma feed_from_wf (evs : list event) (p q : parser) :
  wf p → feed_from p evs = Ok q → wf q.
Proof.
  revert p. induction evs as [|e evs IH]; simpl; intros p Hwf.
  - by intros [= <-].
  - intros H. apply bind_Ok in H as (p' & He & H).
    eapply IH; [|exact H]. by eapply handle_wf.
Qed.

(** Every parser [feed] reaches is well formed. *)
Lemma feed_wf (evs : list event) (p : parser) : feed evs = Ok p → wf p.
Proof. apply feed_from_wf, init_wf. Qed.

Lemma feed_from_app (evs1 evs2 : list event) (p : parser) :
  feed_from p (evs1 ++ evs2) =
  do q <- feed_from p evs1; feed_from q evs2.
Proof.
  revert p. induction evs1 as [|e evs1 IH]; simpl; intros p; [done|].
  destruct (handle e p) as [p'|x]; simpl; [apply IH|done].
Qed.

(** The item pattern in Item mode never raises. *)
Lemma data_span_item_mode (data : string) (p : parser) :
  wf p → state p = item_mode →
  ∃ its it,
    item_store p = its ++ [it] ∧ current_item p = Some (length its) ∧
    data_span data p =
    Ok match item_regex_match data with
       | Some (g1, g2) =>
           set_item_store (its ++ [<[strip g1 := strip g2]> it])
             (set_current_key (strip g1) p)
       | None => p
       end.
Proof.
  intros Hwf Hm. destruct (wf_last_item p Hwf Hm) as (its & it & E & Ec).
  exists its, it. split; [done|]. split; [done|]. unfold data_span, deref.
  destruct (item_regex_match data) as [[g1 g2]|]; [|done]. simpl.
  rewrite Ec, E. simpl. rewrite lookup_snoc. simpl. by rewrite insert_snoc.
Qed.

(** The continuation raises exactly when the current item has no value
    under the current key. *)
Lemma data_continuation_ready (data : string) (p : parser) :
  continuation_ready p → ∃ q, data_continuation data p = Ok q.
Proof.
  intros (it & k & old & Hit & Hk & Hold). unfold the_item in Hit.
  unfold data_continuation, deref.
  destruct (current_item p) as [i|]; [|discriminate]. simpl.
  rewrite Hk. simpl. rewrite Hit. simpl. rewrite Hold. simpl. eauto.
Qed.

Lemma data_continuation_Ok_ready (data : string) (p : parser) (q : parser) :
  data_continuation data p = Ok q → continuation_ready p.
Proof.
  unfold data_continuation, deref, continuation_ready, the_item. intros H.
  apply bind_Ok in H as (i & Hi & H). apply bind_Ok in H as (k & Hk & H).
  apply bind_Ok in H as (it & Hit & H). apply bind_Ok in H as (old & Hold & H).
  destruct (current_item p); [|discriminate]. injection Hi as ->.
  destruct (current_key p); [|discriminate]. injection Hk as ->.
  destruct (item_store p !! i); [|discriminate]. injection Hit as ->.
  destruct (it !! k) eqn:E; [|discriminate]. injection Hold as ->.
  by exists it, k, old.
Qed.

(** ** Unbalanced end tags *)

Lemma data_continuation_Raise (data : string) (p : parser) (e : exn) :
  wf p → data_continuation data p = Raise e →
  ¬ continuation_ready p ∧
  (e = AttributeError "current_item" ∨ e = AttributeError "current_key" ∨
   ∃ k, current_key p = Some k ∧ e = KeyError k).
Proof.
  intros Hwf H. split.
  { intros Hr. destruct (data_continuation_ready data p Hr) as (q & Hq).
    congruence. }
  revert H. unfold data_continuation, deref.
  rewrite (wf_current_item p Hwf). unfold last_ref.
  destruct (item_store p) as [|it0 its] eqn:E using rev_ind.
  { simpl. intros [= <-]. by left. }
  clear IHits. rewrite length_app, Nat.add_1_r. simpl.
  destruct (current_key p) as [k|]; simpl; [|intros [= <-]; right; by left].
  rewrite lookup_snoc. simpl.
  destruct (it0 !! k); simpl; [discriminate|].
  intros [= <-]. right. right. by exists k.
Qed.

Lemma span_or_continuation_Raise (tag data : string) (p : parser) (e : exn) :
  wf p → span_or_continuation tag data p = Raise e →
  ¬ (tag = "span" ∧ state p = item_mode) ∧ "span" ∈ current_tags p ∧
  data_continuation data p = Raise e.
Proof.
  intros Hwf. unfold span_or_continuation.
  case_bool_decide as Hs.
  { destruct Hs as [_ Hm].
    destruct (data_span_item_mode data p Hwf Hm) as (its & it & _ & _ & ->).
    discriminate. }
  case_bool_decide; [done|discriminate].
Qed.

(** The stack of open tags follows the events. *)
Lemma handle_tags (e : event) (p q : parser) :
  wf p → handle e p = Ok q → current_tags q = tags_after e (current_tags p).
Proof.
  intros Hwf. destruct e as [tag|tag|raw]; simpl.
  - destruct (handle_starttag_ok tag p Hwf) as (q' & -> & _ & Ht & _).
    by intros [= <-].
  - unfold handle_endtag. destruct (current_tags p); [discriminate|].
    by intros [= <-].
  - intros H.
    destruct (handle_data_Ok raw p q Hwf H) as [[_ ->]|(tag & q' & _ & Hs & H')];
      [done|].
    apply span_or_continuation_frame in H' as (_ & -> & _).
    by apply before_span_step_frame in Hs as (-> & _).
Qed.

(** Only [pop] raises [IndexError], and only on an empty stack. *)
Lemma handle_IndexError (e : event) (p : parser) :
  wf p → handle e p = Raise IndexError →
  ∃ tag, e = TagClose tag ∧ current_tags p = [].
Proof.
  intros Hwf. destruct e as [tag|tag|raw]; simpl.
  - destruct (handle_starttag_ok tag p Hwf) as (q' & -> & _). discriminate.
  - unfold handle_endtag. destruct (current_tags p); [eauto|discriminate].
  - intros H. apply handle_data_Raise in H as (tag & q & _ & Hs & H); [|done].
    apply span_or_continuation_Raise in H as (_ & _ & H);
      [|by eapply before_span_step_wf].
    apply data_continuation_Raise in H as (_ & [H|[H|(k & _ & H)]]);
      [discriminate..|by eapply before_span_step_wf].
Qed.

Lemma feed_from_balanced (evs : list event) (p q : parser) :
  wf p → feed_from p evs = Ok q →
  balanced_from (length (current_tags p)) evs = true.
Proof.
  revert p. induction evs as [|e evs IH]; simpl; intros p Hwf; [done|].
  intros H. apply bind_Ok in H as (p' & He & H).
  pose proof (handle_tags e p p' Hwf He) as Ht.
  pose proof (IH p' (handle_wf e p p' Hwf He) H) as Hb.
  rewrite Ht in Hb. destruct e as [tag|tag|raw]; simpl in *.
  - by rewrite length_app, Nat.add_1_r in Hb.
  - unfold handle_endtag in He.
    destruct (current_tags p) as [|t ts] eqn:E using rev_ind; [discriminate|].
    rewrite removelast_last in Hb. by rewrite length_app, Nat.add_1_r.
  - done.
Qed.

Lemma feed_from_no_IndexError (evs : list event) (p : parser) :
  wf p → balanced_from (length (current_tags p)) evs = true →
  feed_from p evs ≠ Raise IndexError.
Proof.
  revert p. induction evs as [|e evs IH]; simpl; intros p Hwf Hb; [done|].
  intros H. apply bind_Raise in H as [H|(p' & He & H)].
  - apply handle_IndexError in H as (tag & -> & E); [|done].
    by rewrite E in Hb.
  - apply (IH p'); [by eapply handle_wf| |done].
    rewrite (handle_tags e p p' Hwf He).
    destruct e as [tag|tag|raw]; simpl in *.
    + by rewrite length_app, Nat.add_1_r.
    + destruct (current_tags p) as [|t ts] eqn:E using rev_ind; [done|].
      rewrite removelast_last.
      by rewrite length_app, Nat.add_1_r in Hb.
    + done.
Qed.

(** C10: a [TagClose] with no open tag is fatal, the [pop] raising
    [IndexError]; a document can only be parsed to the end when every
    [TagClose] has an earlier [TagOpen] that is still open, and when that
    holds no [pop] ever fails. *)
Theorem endtag_needs_an_open_tag (evs : list event) :
  (∀ tag p, handle_endtag tag p = Raise IndexError ↔ current_tags p = []) ∧
  (is_ok (feed evs) = true → balanced evs = true) ∧
  (balanced evs = true → feed evs ≠ Raise IndexError).
Proof.
  split; [|split].
  - intros tag p. unfold handle_endtag.
    destruct (current_tags p); split; done.
  - unfold feed. destruct (feed_from init evs) as [q|e] eqn:E; [|done].
    intros _. by apply (feed_from_balanced evs init q init_wf).
  - apply (feed_from_no_IndexError evs init init_wf).
Qed.

Lemma endtag_needs_an_open_tag_witness :
  is_ok (feed nested_span) = true ∧ balanced nested_span = true ∧
  feed nested_span ≠ Raise IndexError.
Proof.
  split; [vm_compute; reflexivity|].
  split.
  - apply (proj1 (proj2 (endtag_needs_an_open_tag nested_span))).
    vm_compute; reflexivity.
  - apply (proj2 (proj2 (endtag_needs_an_open_tag nested_span))).
    vm_compute; reflexivity.
Defined.

(** ** What the parser can raise *)

(** The exceptions the parser can raise: the [pop] of an empty stack, and
    the three failures of the continuation.  A reference is never followed
    outside the store. *)
Lemma handle_exceptions (e : event) (p : parser) (x : exn) :
  wf p → handle e p = Raise x →
  x = IndexError ∨ x = AttributeError "current_item" ∨
  x = AttributeError "current_key" ∨ ∃ k, x = KeyError k.
Proof.
  intros Hwf. destruct e as [tag|tag|raw]; simpl.
  - destruct (handle_starttag_ok tag p Hwf) as (q' & -> & _). discriminate.
  - unfold handle_endtag. destruct (current_tags p); [|discriminate].
    intros [= <-]. by left.
  - intros H. apply handle_data_Raise in H as (tag & q & _ & Hs & H); [|done].
    apply span_or_continuation_Raise in H as (_ & _ & H);
      [|by eapply before_span_step_wf].
    apply data_continuation_Raise in H as (_ & [H|[H|(k & _ & H)]]);
      [| | |by eapply before_span_step_wf]; eauto.
Qed.

(** X1: when parsing fails, it fails with the [IndexError] of an end tag
    that has nothing to close, or on the continuation path: with the
    [AttributeError] of a missing current item or current key, or with a
    [KeyError] of the current item.  Nothing else is ever raised. *)
Lemma feed_exceptions (evs : list event) (x : exn) :
  feed evs = Raise x →
  x = IndexError ∨ x = AttributeError "current_item" ∨
  x = AttributeError "current_key" ∨ ∃ k, x = KeyError k.
Proof.
  unfold feed. generalize init_wf. generalize init.
  induction evs as [|e evs IH]; simpl; intros p Hwf; [discriminate|].
  intros H. apply bind_Raise in H as [H|(p' & He & H)].
  - by eapply handle_exceptions.
  - eapply IH; [|exact H]. by eapply handle_wf.
Qed.

(** ** Title and description *)

(** C5: a level-1 heading and one paragraph, in either order and with
    nothing else, give a document whose title is the heading text, whose
    description is the paragraph text followed by one newline, and whose
    steps are the empty sequence. *)
Theorem heading_and_paragraph (t d : list N) :
  run_doc [TagOpen "h1"; Text t; TagClose "h1";
           TagOpen "p"; Text d; TagClose "p"] =
    Some (mk_document (encode_utf8 t) (encode_utf8 d +:+ newline) (Some []))
  ∧
  run_doc [TagOpen "p"; Text d; TagClose "p";
           TagOpen "h1"; Text t; TagClose "h1"] =
    Some (mk_document (encode_utf8 t) (encode_utf8 d +:+ newline) (Some [])).
Proof. split; reflexivity. Qed.

(** X19: ASCII text is encoded as itself. *)
Lemma encode_utf8_unicode_ascii (s : string) :
  Forall (λ c, N_of_ascii c < 128) (String.list_ascii_of_string s) →
  encode_utf8 (unicode s) = s.
Proof.
  induction s as [|c s IH]; simpl; [done|].
  intros H. apply Forall_cons in H as [Hc Hs]. rewrite (IH Hs).
  unfold encode_code_point.
  assert ((N_of_ascii c <? 128) = true) as -> by (by apply N.ltb_lt).
  unfold byte_of. rewrite N.mod_small by lia.
  by rewrite ascii_N_embedding.
Qed.

(** The title is the text as it arrives: nothing is trimmed. *)
Lemma title_keeps_spaces :
  (doc_title <$> run_doc [TagOpen "h1"; Text (unicode " T "); TagClose "h1"])
  = Some " T " ∧
  strip (encode_utf8 (unicode " T ")) = "T".
Proof. split; reflexivity. Qed.

(** C6, as the specification states it, fails on a heading with spaces
    around its text. *)
Lemma title_is_not_trimmed :
  ¬ (∀ (raw : list N) (p q : parser),
       last (current_tags p) = Some "h1" → state p = title_mode →
       handle_data raw p = Ok q →
       Output.title (output q) = strip (encode_utf8 raw)).
Proof.
  intros H.
  specialize (H (unicode " T ") (set_current_tags ["h1"] init)
                (set_output (Output.mk " T " "" (Some []))
                   (set_defining_steps false
                      (set_current_tags ["h1"] init)))
                eq_refl eq_refl eq_refl).
  vm_compute in H. discriminate.
Qed.

(** C6, amended: a text whose innermost tag is a level-1 heading, in Title
    mode, becomes the title as it is (its UTF-8 encoding, untrimmed); the
    handler succeeds when no [span] is open. *)
Theorem title_is_the_heading_text (raw : list N) (p : parser) :
  last (current_tags p) = Some "h1" → state p = title_mode →
  (∀ q, handle_data raw p = Ok q →
        Output.title (output q) = encode_utf8 raw) ∧
  ("span" ∉ current_tags p →
   handle_data raw p =
   Ok (set_output
         (Output.mk (encode_utf8 raw) (Output.description (output p))
            (Output.steps (output p)))
         (set_defining_steps false p))).
Proof.
  intros Ht Hm. rewrite handle_data_dispatch, Ht.
  unfold before_span. rewrite decide_True by done. rewrite decide_True by done.
  unfold data_h1. simpl. split.
  - intros q Hq. apply span_or_continuation_frame in Hq as (-> & _). done.
  - intros Hs. unfold span_or_continuation.
    rewrite bool_decide_eq_false_2 by (intros [? _]; discriminate).
    by rewrite bool_decide_eq_false_2.
Qed.

Lemma title_is_the_heading_text_witness :
  handle_data (unicode " T ") (set_current_tags ["h1"] init) =
  Ok (set_output (Output.mk " T " "" (Some []))
        (set_defining_steps false (set_current_tags ["h1"] init))).
Proof.
  apply (proj2 (title_is_the_heading_text (unicode " T ")
                  (set_current_tags ["h1"] init) eq_refl eq_refl)).
  vm_compute. intros H. inversion H as [|? ? ? H']; inversion H'.
Defined.


(** ** Spans: key and value, dropped text, continuation *)

Lemma the_item_update (p : parser) (i : ref) (it it' : item) :
  current_item p = Some i → item_store p !! i = Some it →
  the_item (set_item_store (<[i := it']> (item_store p)) p) = Some it'.
Proof.
  intros Hi Hit. unfold the_item. simpl. rewrite Hi.
  apply list_lookup_insert_eq. by eapply lookup_lt_Some.
Qed.

Lemma before_span_other (tag data : string) (p : parser) :
  tag ≠ "h1" → tag ≠ "p" → tag ≠ "h2" → tag ≠ "blockquote" → tag ≠ "h3" →
  before_span tag data p = Ok p.
Proof. intros. unfold before_span. by rewrite !decide_False by done. Qed.

(** C1, as the specification states it, fails on its own example: the
    second span is dropped, the title stays ["Foo"]. *)
Lemma second_span_is_dropped :
  first_item two_spans "title" = Some "Foo" ∧
  first_item two_spans "title" ≠ Some "Foo Bar".
Proof. split; vm_compute; [reflexivity|discriminate]. Qed.

(** A text nested in an element inside the span is appended. *)
Lemma nested_text_is_appended :
  first_item nested_span "title" = Some "Foo Bar".
Proof. vm_compute. reflexivity. Qed.

(** C1, amended: in Item mode a text whose innermost tag is a span and
    that matches the pattern sets [Item[key]] to the value, both trimmed,
    and makes the key current; one that does not match is dropped and the
    parser is left as it was.  A text is appended to [Item[current key]]
    when it arrives in an element nested inside an open span. *)
Theorem span_text_sets_a_key_or_is_dropped
    (raw : list N) (p : parser) (it : item) :
  the_item p = Some it →
  (state p = item_mode → last (current_tags p) = Some "span" →
   match item_regex_match (encode_utf8 raw) with
   | Some (g1, g2) =>
       ∃ q, handle_data raw p = Ok q ∧
            the_item q = Some (<[strip g1 := strip g2]> it) ∧
            current_key q = Some (strip g1)
   | None => handle_data raw p = Ok p
   end) ∧
  (∀ tag k old,
     last (current_tags p) = Some tag →
     tag ∉ ["h1"; "p"; "h2"; "blockquote"; "h3"; "span"] →
     "span" ∈ current_tags p →
     current_key p = Some k → it !! k = Some old →
     ∃ q, handle_data raw p = Ok q ∧
          the_item q = Some (<[k := old +:+ encode_utf8 raw]> it) ∧
          current_key q = Some k).
Proof.
  intros Hit. unfold the_item in Hit.
  destruct (current_item p) as [i|] eqn:Hi; [|discriminate]. split.
  - intros Hm Ht. rewrite handle_data_dispatch, Ht.
    rewrite before_span_other by done. simpl.
    unfold span_or_continuation. rewrite bool_decide_eq_true_2 by done.
    unfold data_span, deref.
    destruct (item_regex_match (encode_utf8 raw)) as [[g1 g2]|]; [|done].
    simpl. rewrite Hi. simpl. rewrite Hit. simpl.
    eexists. split; [done|]. split; [|done].
    by apply (the_item_update (set_current_key (strip g1) p) i it).
  - intros tag k old Ht Htag Hs Hk Hold. rewrite handle_data_dispatch, Ht.
    rewrite !not_elem_of_cons in Htag.
    destruct Htag as (? & ? & ? & ? & ? & ? & _).
    rewrite before_span_other by done. simpl.
    unfold span_or_continuation.
    rewrite bool_decide_eq_false_2 by (by intros [? _]).
    rewrite bool_decide_eq_true_2 by done.
    unfold data_continuation, deref. rewrite Hi, Hk. simpl.
    rewrite Hit. simpl. rewrite Hold. simpl.
    eexists. split; [done|]. split; [|done].
    by apply (the_item_update p i it).
Qed.


Lemma span_text_sets_a_key_or_is_dropped_witness :
  (∃ q, handle_data (unicode "title: Foo")
          (parser_after (open_item ++ [TagOpen "span"])) = Ok q ∧
        the_item q = Some {[ "title" := "Foo" ]} ∧
        current_key q = Some "title") ∧
  (∃ q, handle_data (unicode " Bar")
          (parser_after
             (open_item ++
              [TagOpen "span"; Text (unicode "title: Foo"); TagOpen "b"]))
        = Ok q ∧
        the_item q = Some {[ "title" := "Foo Bar" ]} ∧
        current_key q = Some "title").
Proof.
  split.
  - assert (the_item (parser_after (open_item ++ [TagOpen "span"])) = Some ∅)
      as Hit by (vm_compute; reflexivity).
    assert (state (parser_after (open_item ++ [TagOpen "span"])) = item_mode)
      as Hm by (vm_compute; reflexivity).
    assert (last (current_tags (parser_after (open_item ++ [TagOpen "span"])))
            = Some "span") as Ht by (vm_compute; reflexivity).
    exact (proj1 (span_text_sets_a_key_or_is_dropped
                    (unicode "title: Foo") _ ∅ Hit) Hm Ht).
  - set (p := parser_after
                 (open_item ++
                  [TagOpen "span"; Text (unicode "title: Foo"); TagOpen "b"])).
    assert (the_item p = Some {[ "title" := "Foo" ]})
      as Hit by (vm_compute; reflexivity).
    assert (last (current_tags p) = Some "b")
      as Ht by (vm_compute; reflexivity).
    assert ("b" ∉ ["h1"; "p"; "h2"; "blockquote"; "h3"; "span"])
      as Hb by (apply (bool_decide_unpack _); vm_compute; exact I).
    assert ("span" ∈ current_tags p)
      as Hs by (apply (bool_decide_unpack _); vm_compute; exact I).
    assert (current_key p = Some "title")
      as Hk by (vm_compute; reflexivity).
    assert (({[ "title" := "Foo" ]} : item) !! "title" = Some "Foo")
      as Hold by (vm_compute; reflexivity).
    exact (proj2 (span_text_sets_a_key_or_is_dropped
                    (unicode " Bar") p _ Hit) "b" "title" "Foo"
             Ht Hb Hs Hk Hold).
Defined.

(** ** When the continuation fails *)

Lemma before_span_step_ready (data tag : string) (p q : parser) :
  before_span_step data tag p q →
  continuation_ready q ↔ continuation_ready p.
Proof.
  intros H. apply before_span_step_frame in H as (_ & Hi & Hk & Hs).
  unfold continuation_ready, the_item. by rewrite Hi, Hk, Hs.
Qed.

Lemma before_span_step_span (data : string) (p q : parser) :
  before_span_step data "span" p q → q = p.
Proof. by inversion 1. Qed.

Lemma data_continuation_stays_ready (data : string) (p q : parser) :
  data_continuation data p = Ok q → continuation_ready q.
Proof.
  unfold data_continuation, deref. intros H.
  apply bind_Ok in H as (i & Hi & H). apply bind_Ok in H as (k & Hk & H).
  apply bind_Ok in H as (it & Hit & H). apply bind_Ok in H as (old & _ & H).
  destruct (current_item p) eqn:Ei; [|discriminate]. injection Hi as ->.
  destruct (current_key p) eqn:Ek; [|discriminate]. injection Hk as ->.
  destruct (item_store p !! i) eqn:El; [|discriminate]. injection Hit as ->.
  injection H as <-.
  exists (<[k := old +:+ data]> it), k, (old +:+ data).
  split; [by apply (the_item_update p i it)|]. split; [done|].
  apply lookup_insert_eq.
Qed.

(** On a reachable parser [handle_data] raises exactly when the text is a
    continuation and the current item has nothing under the current key. *)
Lemma handle_data_fails_iff (raw : list N) (p : parser) :
  wf p →
  is_ok (handle_data raw p) = false ↔
  on_continuation_path p ∧ ¬ continuation_ready p.
Proof.
  intros Hwf. split.
  - destruct (handle_data raw p) as [q|e] eqn:H; [discriminate|]. intros _.
    apply handle_data_Raise in H as (tag & q & Ht & Hs & H); [|done].
    pose proof (before_span_step_wf _ _ _ _ Hwf Hs) as Hwfq.
    apply span_or_continuation_Raise in H as (Hno & Hin & H); [|done].
    apply data_continuation_Raise in H as (Hnr & _); [|done].
    pose proof (before_span_step_frame _ _ _ _ Hs) as (Htags & _).
    split.
    + exists tag. split; [done|]. rewrite <- Htags. split; [|done].
      intros [-> Hm]. apply before_span_step_span in Hs as ->. tauto.
    + by rewrite <- (before_span_step_ready _ _ _ _ Hs).
  - intros [(tag & Ht & Hno & Hin) Hnr].
    rewrite handle_data_dispatch, Ht.
    destruct (before_span_steps tag (encode_utf8 raw) p Hwf) as (q & -> & Hs).
    simpl. unfold span_or_continuation.
    pose proof (before_span_step_frame _ _ _ _ Hs) as (Htags & _).
    rewrite bool_decide_eq_false_2.
    2:{ intros [-> Hm]. apply before_span_step_span in Hs as ->. tauto. }
    rewrite bool_decide_eq_true_2 by by rewrite Htags.
    destruct (data_continuation (encode_utf8 raw) q) as [q'|e] eqn:H; [|done].
    apply data_continuation_Ok_ready in H.
    by rewrite (before_span_step_ready _ _ _ _ Hs) in H.
Qed.

Lemma handle_endtag_snoc (tag t : string) (ts : list string) (p : parser) :
  current_tags p = ts ++ [t] →
  handle_endtag tag p = Ok (set_current_tags ts p).
Proof.
  intros E. unfold handle_endtag. rewrite E, removelast_last.
  by destruct ts.
Qed.

(** A stream that is balanced and guarded is parsed to the end. *)
Lemma feed_from_guarded (evs : list event) (p : parser) (key : bool) :
  wf p →
  balanced_from (length (current_tags p)) evs = true →
  guarded_from (current_tags p) (state p) key evs = true →
  (key = true → continuation_ready p) →
  ∃ q, feed_from p evs = Ok q.
Proof.
  revert p key. induction evs as [|e evs IH]; simpl; intros p key Hwf Hb Hg Hk.
  { eauto. }
  destruct e as [tag|tag|raw]; simpl.
  - destruct (decide (tag = "ul" ∧ (state p = column_mode ∨ state p = item_mode)))
      as [[-> Hm]|Hno].
    + destruct (handle_starttag_ul p Hwf Hm) as (cos & col & E & Hq).
      destruct (handle_starttag_ok "ul" p Hwf) as (q & Hq' & Hwfq & Ht & _).
      rewrite Hq'. simpl. apply (IH q false); try done.
      * by rewrite Ht, length_app, Nat.add_1_r.
      * rewrite Ht. rewrite Hq in Hq'. injection Hq' as <-. done.
    + rewrite handle_starttag_other by done. simpl.
      apply (IH _ key); simpl; try done.
      * by apply wf_set_tags.
      * by rewrite length_app, Nat.add_1_r.
  - destruct (current_tags p) as [|t ts] eqn:E using rev_ind; [done|].
    clear IHts. rewrite length_app, Nat.add_1_r in Hb.
    rewrite (handle_endtag_snoc tag t ts p E). simpl.
    rewrite removelast_last in Hg.
    apply (IH _ key); simpl; try done. by apply wf_set_tags.
  - rewrite handle_data_dispatch.
    destruct (last (current_tags p)) as [tag|] eqn:Ht; simpl;
      [|by apply (IH p key)].
    destruct (before_span_steps tag (encode_utf8 raw) p Hwf) as (q & -> & Hs).
    simpl.
    pose proof (before_span_step_wf _ _ _ _ Hwf Hs) as Hwfq.
    pose proof (before_span_step_frame _ _ _ _ Hs) as (Htags & _).
    pose proof (before_span_step_state _ _ _ _ Hs) as Hstate.
    pose proof (before_span_step_ready _ _ _ _ Hs) as Hready.
    rewrite <- Hstate, <- Htags in Hg. rewrite <- Htags in Hb.
    unfold span_or_continuation.
    destruct (decide (tag = "span" ∧ state q = item_mode)) as [[-> Hm]|Hno].
    + rewrite bool_decide_eq_true_2 by done.
      destruct (data_span_item_mode (encode_utf8 raw) q Hwfq Hm)
        as (its & it & E & Ec & Hq).
      rewrite Hq. simpl.
      destruct (item_regex_match (encode_utf8 raw)) as [[g1 g2]|].
      * apply (IH _ true); simpl; try done.
        -- apply wf_set_items; [by apply wf_set_key|].
           simpl. by rewrite E, !length_app.
        -- intros _. exists (<[strip g1 := strip g2]> it), (strip g1), (strip g2).
           split; [|split; [done|apply lookup_insert_eq]].
           unfold the_item. simpl. rewrite Ec. apply lookup_snoc.
        * apply (IH q key); try done. intros Hkey. apply Hready. auto.
    + rewrite bool_decide_eq_false_2 by done.
      destruct (decide ("span" ∈ current_tags q)) as [Hin|Hout].
      * rewrite bool_decide_eq_true_2 by done.
        apply andb_true_iff in Hg as [-> Hg].
        destruct (data_continuation_ready (encode_utf8 raw) q) as (q' & Hq').
        { apply Hready. auto. }
        rewrite Hq'.
        pose proof (data_continuation_wf _ _ _ Hwfq Hq') as Hwfq'.
        assert (span_or_continuation tag (encode_utf8 raw) q = Ok q') as Hf.
        { unfold span_or_continuation.
          rewrite bool_decide_eq_false_2 by done.
          by rewrite bool_decide_eq_true_2. }
        apply span_or_continuation_frame in Hf as (_ & Et & Em & _).
        apply (IH q' true); try done.
        -- by rewrite Et.
        -- by rewrite Et, Em.
        -- intros _. by eapply data_continuation_stays_ready.
      * rewrite bool_decide_eq_false_2 by done.
        apply (IH q key); try done. intros Hkey. apply Hready. auto.
Qed.

Lemma parser_after_wf (evs : list event) : wf (parser_after evs).
Proof.
  unfold parser_after. destruct (feed evs) as [p|e] eqn:E.
  - by eapply feed_wf.
  - apply init_wf.
Qed.

(** C2, as the specification states it, fails: the first span of a list
    entry holds a text that does not match the pattern, no key has been
    established, and the text is accepted and dropped. *)
Lemma keyless_span_text_is_accepted :
  state (parser_after (open_item ++ [TagOpen "span"])) = item_mode ∧
  last (current_tags (parser_after (open_item ++ [TagOpen "span"])))
  = Some "span" ∧
  current_key (parser_after (open_item ++ [TagOpen "span"])) = None ∧
  item_regex_match (encode_utf8 (unicode "hello")) = None ∧
  handle_data (unicode "hello") (parser_after (open_item ++ [TagOpen "span"]))
  = Ok (parser_after (open_item ++ [TagOpen "span"])) ∧
  is_ok (feed keyless_span) = true.
Proof. split_and!; vm_compute; reflexivity. Qed.

(** The key of an earlier item does not help a later one: the new item is
    empty, and the continuation raises [KeyError]. *)
Lemma key_of_an_earlier_item_raises :
  feed keyless_second_item = Raise (KeyError "title") ∧
  guarded keyless_second_item = false.
Proof. split; vm_compute; reflexivity. Qed.

(** C2, amended: a span text in Item mode that does not match the pattern
    is dropped without an error, with or without a current key.  A text
    is fatal exactly when it takes the continuation branch while the current
    item has no value under the current key; a balanced stream in which
    every continuation text comes after a matching span of the same item is
    parsed to the end. *)
Theorem continuation_without_a_key_is_fatal (evs : list event) :
  (∀ raw p,
     state p = item_mode → last (current_tags p) = Some "span" →
     item_regex_match (encode_utf8 raw) = None →
     handle_data raw p = Ok p) ∧
  (∀ raw p,
     wf p →
     is_ok (handle_data raw p) = false ↔
     on_continuation_path p ∧ ¬ continuation_ready p) ∧
  (balanced evs = true → guarded evs = true → is_ok (feed evs) = true).
Proof.
  split; [|split].
  - intros raw p Hm Ht Hno. rewrite handle_data_dispatch, Ht.
    rewrite before_span_other by done. simpl. unfold span_or_continuation.
    rewrite bool_decide_eq_true_2 by done. unfold data_span. by rewrite Hno.
  - intros raw p. apply handle_data_fails_iff.
  - intros Hb Hg.
    destruct (feed_from_guarded evs init false init_wf Hb Hg) as (q & Hq);
      [done|].
    unfold feed. by rewrite Hq.
Qed.

Lemma continuation_without_a_key_is_fatal_witness :
  handle_data (unicode "hello") (parser_after (open_item ++ [TagOpen "span"]))
  = Ok (parser_after (open_item ++ [TagOpen "span"])) ∧
  (on_continuation_path
     (parser_after (open_item ++ [TagOpen "span"; TagOpen "b"])) ∧
   ¬ continuation_ready
       (parser_after (open_item ++ [TagOpen "span"; TagOpen "b"]))) ∧
  is_ok (feed nested_span) = true.
Proof.
  split; [|split].
  - apply (proj1 (continuation_without_a_key_is_fatal [])
             (unicode "hello")
             (parser_after (open_item ++ [TagOpen "span"])));
      vm_compute; reflexivity.
  - apply (proj1 (proj2 (continuation_without_a_key_is_fatal []))
             (unicode "more")
             (parser_after (open_item ++ [TagOpen "span"; TagOpen "b"]))
             (parser_after_wf _)).
    vm_compute. reflexivity.
  - apply (proj2 (proj2 (continuation_without_a_key_is_fatal nested_span)));
      vm_compute; reflexivity.
Defined.

(** ** Objects of an earlier scope *)

(** C3 fails on the code.  After the second column heading ["B"] the
    document still has the single column ["C"], and the list that follows
    the heading is appended to it; after the second step heading, a text
    nested in a span is appended to the item of the first step. *)
Theorem earlier_objects_are_modified :
  run_doc second_heading =
    Some (mk_document "" ""
            (Some [mk_step "S" "S" None
                     (Some [mk_column "C"
                              (Some [{[ "title" := "X" ]}])])])) ∧
  run_doc second_column =
    Some (mk_document "" ""
            (Some [mk_step "S" "S" None
                     (Some [mk_column "C"
                              (Some [{[ "title" := "X" ]};
                                     {[ "title" := "Y" ]}])])])) ∧
  first_item second_step "title" = Some "X" ∧
  first_item after_second_step "title" = Some "Xmore".
Proof. split_and!; vm_compute; reflexivity. Qed.

(** What does hold: the dictionaries of the steps and of the columns
    before the last one are never written again.  The writes that reach an
    earlier scope are those to the last column and to the current item. *)
Lemma earlier_steps_and_columns_are_frozen (e : event) (p q : parser) :
  wf p → handle e p = Ok q →
  (∀ s, (S s < length (step_store p))%nat →
        step_store q !! s = step_store p !! s) ∧
  (∀ c, (S c < length (column_store p))%nat →
        column_store q !! c = column_store p !! c).
Proof.
  intros Hwf. destruct e as [tag|tag|raw]; simpl.
  - destruct (decide (tag = "ul" ∧ (state p = column_mode ∨ state p = item_mode)))
      as [[-> Hm]|Hno].
    + destruct (handle_starttag_ul p Hwf Hm) as (cos & col & E & ->).
      intros [= <-]. simpl. split; [done|]. intros c Hc. rewrite E in *.
      rewrite length_app, Nat.add_1_r in Hc.
      by rewrite !lookup_app_l by lia.
    + rewrite handle_starttag_other by done. by intros [= <-].
  - unfold handle_endtag. destruct (current_tags p); [done|].
    by intros [= <-].
  - intros H.
    destruct (handle_data_Ok raw p q Hwf H)
      as [[_ ->]|(tag & q' & _ & Hs & Hq)]; [done|].
    apply span_or_continuation_frame in Hq
      as (_ & _ & _ & _ & _ & _ & -> & -> & _).
    destruct Hs as [| | |? ? ? ? E|? ? ? ? E|? ? ? ? E|]; simpl; try done.
    + split; [|done]. intros s Hs. by rewrite lookup_app_l by lia.
    + split; [|done]. intros s Hs. rewrite E in *.
      rewrite length_app, Nat.add_1_r in Hs. by rewrite !lookup_app_l by lia.
    + split; [|done]. intros s Hs. rewrite E in *.
      rewrite length_app, Nat.add_1_r in Hs. by rewrite !lookup_app_l by lia.
    + split.
      * intros s Hs. rewrite E in *.
        rewrite length_app, Nat.add_1_r in Hs.
        by rewrite !lookup_app_l by lia.
      * intros c Hc. by rewrite lookup_app_l by lia.
Qed.

(** ** Steps *)

Lemma retitle_last_snoc (t : string) (acc : list (string * string))
    (nav old : string) :
  retitle_last t (acc ++ [(nav, old)]) = acc ++ [(nav, t)].
Proof. unfold retitle_last. by rewrite last_snoc, removelast_last. Qed.

Lemma before_span_step_titles (data tag : string) (p q : parser) :
  before_span_step data tag p q →
  titles q =
    if decide (tag = "h2") then titles p ++ [(data, data)]
    else if decide (tag = "blockquote") then
      if bool_decide (state p = step_mode) then retitle_last data (titles p)
      else titles p
    else titles p.
Proof.
  intros []; unfold titles; simpl; try done.
  - by rewrite fmap_app.
  - rewrite bool_decide_eq_true_2 by done.
    rewrite H0, !fmap_app. simpl. by rewrite retitle_last_snoc.
  - rewrite H0, !fmap_app. done.
  - rewrite H0, !fmap_app. done. 
  - rewrite decide_False by done. case_decide; [|done].
    rewrite bool_decide_eq_false_2; auto.
Qed.

Lemma feed_from_titles (evs : list event) (p q : parser) :
  wf p → feed_from p evs = Ok q →
  titles q =
  expected_steps_from (current_tags p) (bool_decide (state p = step_mode))
    (titles p) evs.
Proof.
  revert p. induction evs as [|e evs IH]; simpl; intros p Hwf.
  { by intros [= <-]. }
  intros H. apply bind_Ok in H as (p' & He & H).
  pose proof (handle_wf e p p' Hwf He) as Hwf'.
  pose proof (handle_tags e p p' Hwf He) as Ht.
  rewrite (IH p' Hwf' H), Ht. clear IH H.
  destruct e as [tag|tag|raw]; simpl in *.
  - destruct (decide (tag = "ul" ∧ (state p = column_mode ∨ state p = item_mode)))
      as [[-> Hm]|Hno].
    + destruct (handle_starttag_ul p Hwf Hm) as (cos & col & E & Hq).
      rewrite Hq in He. injection He as <-. simpl.
      rewrite (bool_decide_eq_false_2 (state p = step_mode)); [done|].
      destruct Hm as [Hm|Hm]; by rewrite Hm.
    + rewrite handle_starttag_other in He by done. by injection He as <-.
  - unfold handle_endtag in He. destruct (current_tags p); [done|].
    by injection He as <-.
  - destruct (handle_data_Ok raw p p' Hwf He)
      as [[Hl ->]|(tag & q' & Hl & Hs & Hq)].
    + rewrite Hl. rewrite !decide_False by done. done.
    + pose proof (before_span_step_titles _ _ _ _ Hs) as Htit.
      pose proof (before_span_step_state _ _ _ _ Hs) as Hst.
      apply span_or_continuation_frame in Hq
        as (_ & _ & Em & _ & _ & _ & Es & _).
      unfold titles at 1. rewrite Es. fold (titles q'). rewrite Em, Hst, Htit.
      rewrite Hl. clear Htit Hst.
      repeat case_decide; repeat case_bool_decide; destruct_and?;
        simplify_eq; try done; try tauto; try congruence.
Qed.

Lemma retitle_last_navtitles (t : string) (acc : list (string * string)) :
  (retitle_last t acc).*1 = acc.*1.
Proof.
  destruct acc as [|[nav old] acc _] using rev_ind; [done|].
  by rewrite retitle_last_snoc, !fmap_app.
Qed.

Lemma expected_steps_from_navtitles (evs : list event) (tags : list string)
    (b : bool) (acc : list (string * string)) :
  (expected_steps_from tags b acc evs).*1 = acc.*1 ++ texts_under "h2" tags evs.
Proof.
  revert tags b acc. induction evs as [|e evs IH]; simpl; intros tags b acc.
  { by rewrite app_nil_r. }
  destruct e as [tag|tag|raw]; simpl; try apply IH.
  repeat case_decide; simplify_eq; rewrite IH; try done.
  - rewrite fmap_app. simpl. by rewrite <- app_assoc.
  - destruct b; [|done]. by rewrite retitle_last_navtitles.
Qed.

Lemma expected_steps_from_no_quote (evs : list event) (tags : list string)
    (b : bool) (acc : list (string * string)) :
  texts_under "blockquote" tags evs = [] →
  Forall (λ s, s.2 = s.1) acc →
  Forall (λ s, s.2 = s.1) (expected_steps_from tags b acc evs).
Proof.
  revert tags b acc. induction evs as [|e evs IH]; simpl; intros tags b acc.
  { done. }
  destruct e as [tag|tag|raw]; simpl; try apply IH.
  repeat case_decide; try done; try congruence; intros Hq Hacc;
    apply IH; try done.
  apply Forall_app. split; [done|]. by apply Forall_singleton.
Qed.

Lemma omap_lookup_seq_from {A B : Type} (f : A → B) (pre l : list A) :
  omap (λ i, f <$> (pre ++ l) !! i) (seq (length pre) (length l)) = f <$> l.
Proof.
  revert pre. induction l as [|x l IH]; intros pre; [done|].
  simpl. rewrite list_lookup_middle by done. simpl. f_equal.
  specialize (IH (pre ++ [x])).
  rewrite <- app_assoc, length_app, Nat.add_1_r in IH. exact IH.
Qed.

Lemma omap_lookup_seq {A B : Type} (f : A → B) (l : list A) :
  omap (λ i, f <$> l !! i) (seq 0 (length l)) = f <$> l.
Proof. apply (omap_lookup_seq_from f [] l). Qed.

(** The steps of the document are the steps of the store, in order. *)
Lemma document_steps (p : parser) :
  wf p → doc_steps (document_of p) = Some (tree_of_step p <$> step_store p).
Proof.
  intros Hwf. unfold document_of. simpl. rewrite (wf_steps p Hwf). simpl.
  f_equal. rewrite <- omap_lookup_seq. apply list_omap_ext.
  apply Forall2_same_length_lookup. split; [done|].
  intros i x y Hx Hy. simplify_eq. unfold step_of.
  by destruct (step_store p !! x).
Qed.

(** The navtitles of the steps are the level-2 heading texts. *)
Lemma feed_titles (evs : list event) (p : parser) :
  feed evs = Ok p →
  titles p = expected_steps evs ∧ (titles p).*1 = h2_texts evs.
Proof.
  intros H. pose proof (feed_from_titles evs init p init_wf H) as Ht.
  change (titles p = expected_steps evs) in Ht. split; [done|].
  rewrite Ht. apply (expected_steps_from_navtitles evs [] false []).
Qed.

(** C4: the document has one step per level-2 heading text, in source
    order; the navtitle of each is the heading text, and so is its title
    unless a quote-block text arrived while the pass was still in Step mode
    for that step, in which case the title alone is that text. *)
Theorem one_step_per_level_2_heading (evs : list event) (p : parser) :
  feed evs = Ok p →
  ∃ steps,
    doc_steps (document_of p) = Some steps ∧
    length steps = length (h2_texts evs) ∧
    step_navtitle <$> steps = h2_texts evs ∧
    (λ s, (step_navtitle s, step_title s)) <$> steps = expected_steps evs ∧
    (no_quote evs → Forall (λ s, step_title s = step_navtitle s) steps).
Proof.
  intros H. pose proof (feed_wf evs p H) as Hwf.
  destruct (feed_titles evs p H) as [Ht Hn]. rewrite Ht in Hn.
  exists (tree_of_step p <$> step_store p).
  assert ((λ s, (step_navtitle s, step_title s)) <$>
            (tree_of_step p <$> step_store p) = expected_steps evs) as Hs.
  { rewrite <- Ht. unfold titles. rewrite <- list_fmap_compose. done. }
  assert (step_navtitle <$> (tree_of_step p <$> step_store p) = h2_texts evs)
    as Hnav.
  { rewrite <- Hn, <- Hs, <- !list_fmap_compose. done. }
  split; [by apply document_steps|]. split; [|split; [done|split; [done|]]].
  - by rewrite <- Hnav, !length_fmap.
  - intros Hq.
    pose proof (expected_steps_from_no_quote evs [] false [] Hq (Forall_nil_2 _))
      as Hall.
    fold (expected_steps evs) in Hall. rewrite <- Hs in Hall.
    rewrite Forall_fmap in Hall. exact Hall.
Qed.

Lemma one_step_per_level_2_heading_witness :
  ∃ steps,
    doc_steps (document_of (parser_after after_second_step)) = Some steps ∧
    length steps = length (h2_texts after_second_step) ∧
    step_navtitle <$> steps = h2_texts after_second_step ∧
    (λ s, (step_navtitle s, step_title s)) <$> steps
    = expected_steps after_second_step ∧
    (no_quote after_second_step →
     Forall (λ s, step_title s = step_navtitle s) steps).
Proof.
  apply (one_step_per_level_2_heading after_second_step).
  vm_compute. reflexivity.
Defined.

(** A quote block replaces the title while the step has no column yet, and
    no longer afterwards. *)
Lemma quote_block_replaces_the_title :
  expected_steps quoted_step = [("Nav", "Full title")] ∧
  titles (parser_after quoted_step) = [("Nav", "Full title")].
Proof. split; vm_compute; reflexivity. Qed.

(** ** Lazily allocated sequences *)








(** ** The access token *)

Section Token.

Variable py_str : json → string.


Lemma subscript_Raise (v : json) (k : string) (e : exn) :
  subscript v k = Raise e → e = KeyError k ∨ e = TypeError.
Proof.
  destruct v as [| | | | |m]; simpl; try (intros [= <-]; by right).
  destruct (member k m); [discriminate|]. intros [= <-]. by left.
Qed.

Lemma first_key_Ok (v fs : json) :
  first_key v = Ok fs → ∃ k, fs = JString k.
Proof.
  destruct v as [| | | | |[|[k x] m]]; simpl; try discriminate.
  intros [= <-]. eauto.
Qed.

Lemma first_key_Raise (v : json) (e : exn) :
  first_key v = Raise e → e = StopIteration ∨ e = TypeError.
Proof.
  destruct v as [| | | | |[|[k x] m]]; simpl; try discriminate;
    intros [= <-]; auto.
Qed.

Lemma str_Raise (v : json) (e : exn) :
  str py_str v = Raise e → e = UnicodeEncodeError.
Proof.
  destruct v as [| | |s| |]; simpl; try discriminate.
  destruct (is_ascii s); [discriminate|]. by intros [= <-].
Qed.

Lemma subscript_falsy (c : json) (key : string) :
  truthy c = false →
  subscript c key = Raise (KeyError key) ∨ subscript c key = Raise TypeError.
Proof.
  destruct c as [| | | | |[|? ?]]; simpl; try discriminate; auto.
Qed.

(** The assertion that carries the login message can never fail: the
    first key of a dictionary is not [None]. *)
Lemma token_of_config_never_asserts (data : json) :
  token_of_config py_str data ≠ Raise (AssertionError login_error).
Proof.
  unfold token_of_config. intros H.
  apply bind_Raise in H as [H|(sites & _ & H)].
  { apply subscript_Raise in H as [H|H]; discriminate. }
  apply bind_Raise in H as [H|(config & _ & H)].
  { by destruct sites. }
  apply bind_Raise in H as [H|([config' fs] & Hr & H)].
  { destruct (truthy config); simpl in H; [discriminate|].
    apply bind_Raise in H as [H|(fs & Hfs & H)].
    { apply first_key_Raise in H as [H|H]; discriminate. }
    apply first_key_Ok in Hfs as (k & ->).
    apply bind_Raise in H as [H|(c & _ & H)]; [|discriminate].
    destruct (truthy (JString k)); [|discriminate].
    apply subscript_Raise in H as [H|H]; discriminate. }
  apply bind_Raise in H as [H|(u & _ & H)].
  - destruct (truthy config') eqn:Et'; simpl in H; [discriminate|].
    destruct (truthy config) eqn:Et; simpl in Hr.
    { injection Hr as <- <-. congruence. }
    apply bind_Ok in Hr as (fs' & Hfs & Hr).
    apply first_key_Ok in Hfs as (k & ->).
    apply bind_Ok in Hr as (c & _ & Hr). injection Hr as <- <-.
    simpl in H. discriminate.
  - apply bind_Raise in H as [H|(t & _ & H)].
    + apply subscript_Raise in H as [H|H]; discriminate.
    + apply str_Raise in H. discriminate.
Qed.

(** X12: [get_token] never fails with the login message: whatever the
    environment and the file, the assertion that carries it holds or is not
    reached. *)
Lemma login_error_is_never_raised (w : world) :
  (get_token py_str w).2 ≠ Raise (AssertionError login_error).
Proof.
  unfold get_token.
  destruct (environ w !! "QUIP_TOKEN") as [[|c tok]|]; simpl; try done;
    (destruct (quiprc w) as [[data|]|]; [|done..]);
    apply token_of_config_never_asserts.
Qed.

(** Without the variable and without the file, the failure is that of
    [open]. *)
Lemma missing_file_is_an_IOError :
  get_token str_opaque bare_world =
  ([GetEnv "QUIP_TOKEN"; OpenFile "~/.quiprc"], Raise IOError).
Proof. vm_compute. reflexivity. Qed.


End Token.


(** ** The command line *)

(** C9 fails on the code in one respect.  Without an argument the script
    stops at [sys.argv[1]], before the assertion that carries the
    descriptive message: it does no I/O and exits with status 1, and what it
    reports is the [IndexError] of the list access.  The message is only
    given for an argument that is the empty string. *)
Theorem missing_argument_is_an_IndexError
    (py_str : json → string) (html_events : string → list event)
    (yaml_dump : document → string) (w : world) :
  script py_str html_events yaml_dump ["generate_yaml.py"] w
  = ([], Raise IndexError) ∧
  exit_status (script py_str html_events yaml_dump ["generate_yaml.py"] w).2
  = 1%nat ∧
  last_line IndexError = "IndexError: list index out of range" ∧
  last_line IndexError ≠ last_line (AssertionError usage) ∧
  script py_str html_events yaml_dump ["generate_yaml.py"; ""] w
  = ([], Raise (AssertionError usage)).
Proof. split_and!; try reflexivity. vm_compute. discriminate. Qed.

(** Whatever stops the module-level statements stops the script before any
    I/O; with an argument, the first thing the script does is to look for
    the token. *)
Lemma no_io_before_the_argument_check
    (py_str : json → string) (html_events : string → list event)
    (yaml_dump : document → string) (argv : list string) (w : world)
    (e : exn) :
  doc_id argv = Raise e →
  script py_str html_events yaml_dump argv w = ([], Raise e).
Proof. unfold script. by intros ->. Qed.

Lemma io_starts_with_the_token :
  script str_opaque (λ _, []) (λ _, "") ["generate_yaml.py"; "abc"] bare_world
  = ([GetEnv "QUIP_TOKEN"; OpenFile "~/.quiprc"], Raise IOError).
Proof. vm_compute. reflexivity. Qed.

(** * Further properties of the code *)

(** ** Texts that are ignored, the tag stack, documents without spans *)

Lemma last_elem_of {A : Type} (l : list A) (x : A) :
  last l = Some x → x ∈ l.
Proof.
  intros H. apply last_Some in H as (l' & ->). set_solver.
Qed.

Lemma handle_data_ignored (raw : list N) (p : parser) :
  text_is_ignored p → handle_data raw p = Ok p.
Proof.
  unfold text_is_ignored. rewrite handle_data_dispatch.
  destruct (last (current_tags p)) as [tag|] eqn:Ht; [|done].
  intros (Hspan & Hh2 & Hh1 & Hp & Hbq & Hh3).
  assert (before_span tag (encode_utf8 raw) p = Ok p) as ->.
  { unfold before_span. repeat case_decide; subst; try done; tauto. }
  simpl. unfold span_or_continuation.
  rewrite bool_decide_eq_false_2.
  2:{ intros [-> _]. apply Hspan. by apply last_elem_of. }
  by rewrite bool_decide_eq_false_2.
Qed.

(** X2: a text that arrives while no tag is open, or while no span is open
    and the innermost tag is not one the current mode looks for (a second
    level-3 heading of a step, a paragraph after the column heading, a list
    entry, ...), has no effect at all: the document parses as if the text
    were not there. *)
Theorem ignored_text_can_be_removed
    (pre post : list event) (raw : list N) (p : parser) :
  feed pre = Ok p → text_is_ignored p →
  feed (pre ++ Text raw :: post) = feed (pre ++ post).
Proof.
  intros H Hi. unfold feed in *. rewrite !feed_from_app, H. simpl.
  by rewrite handle_data_ignored.
Qed.

Lemma ignored_text_can_be_removed_witness :
  feed ((first_column ++ [TagOpen "h3"]) ++
        Text (unicode "B") :: [TagClose "h3"])
  = feed ((first_column ++ [TagOpen "h3"]) ++ [TagClose "h3"]).
Proof.
  assert (feed (first_column ++ [TagOpen "h3"])
          = Ok (parser_after (first_column ++ [TagOpen "h3"]))) as H
    by (vm_compute; reflexivity).
  assert (current_tags (parser_after (first_column ++ [TagOpen "h3"]))
          = ["h3"]) as Et by (vm_compute; reflexivity).
  assert (state (parser_after (first_column ++ [TagOpen "h3"]))
          = item_mode) as Em by (vm_compute; reflexivity).
  assert (text_is_ignored (parser_after (first_column ++ [TagOpen "h3"])))
    as Hi.
  { unfold text_is_ignored. rewrite Et, Em. simpl.
    split_and!; [|discriminate|discriminate|discriminate|discriminate|].
    - intros Hin. apply list_elem_of_singleton in Hin. discriminate.
    - intros _. discriminate. }
  exact (ignored_text_can_be_removed (first_column ++ [TagOpen "h3"])
           [TagClose "h3"] (unicode "B") _ H Hi).
Defined.

Lemma feed_from_open_tags (evs : list event) (p q : parser) :
  wf p → feed_from p evs = Ok q →
  current_tags q = foldl (λ tags e, tags_after e tags) (current_tags p) evs.
Proof.
  revert p. induction evs as [|e evs IH]; simpl; intros p Hwf.
  { by intros [= <-]. }
  intros H. apply bind_Ok in H as (p' & He & H).
  rewrite (IH p' (handle_wf e p p' Hwf He) H).
  by rewrite (handle_tags e p p' Hwf He).
Qed.

(** X3: after a document has been parsed, the stack of open tags is what
    its start and end tags leave: a start tag adds its name, an end tag
    removes the innermost open tag whatever its own name, a text leaves the
    stack alone. *)
Theorem open_tags_are_tracked (evs : list event) (p : parser) :
  feed evs = Ok p → current_tags p = open_tags evs.
Proof. apply (feed_from_open_tags evs init p init_wf). Qed.

Lemma open_tags_are_tracked_witness :
  current_tags (parser_after
                  [TagOpen "ul"; TagOpen "b"; TagClose "i"; TagOpen "li"])
  = ["ul"; "li"].
Proof.
  apply (open_tags_are_tracked
           [TagOpen "ul"; TagOpen "b"; TagClose "i"; TagOpen "li"]).
  vm_compute. reflexivity.
Defined.

Lemma guarded_from_no_span (evs : list event) (tags : list string)
    (m : mode) (key : bool) :
  "span" ∉ tags → TagOpen "span" ∉ evs →
  guarded_from tags m key evs = true.
Proof.
  revert tags m key. induction evs as [|e evs IH]; simpl; [done|].
  intros tags m key Ht He. apply not_elem_of_cons in He as [Hne He].
  destruct e as [tag|tag|raw].
  - assert ("span" ∉ tags ++ [tag]) as Ht'.
    { rewrite elem_of_app, list_elem_of_singleton. intros [?|?]; [done|].
      by subst. }
    case_decide; by apply IH.
  - apply IH; [|done]. intros Hin. apply Ht.
    destruct tags as [|t ts _] using rev_ind; [done|].
    rewrite removelast_last in Hin. set_solver.
  - destruct (last tags) as [tag|] eqn:El; [|by apply IH].
    rewrite decide_False.
    2:{ intros [-> _]. apply Ht. by apply last_elem_of. }
    rewrite decide_False by done. by apply IH.
Qed.

(** X4: a document in which no span is ever opened and every end tag has
    an open tag to close is parsed to the end: without spans the parser
    raises nothing. *)
Theorem no_span_no_error (evs : list event) :
  balanced evs = true → TagOpen "span" ∉ evs → is_ok (feed evs) = true.
Proof.
  intros Hb Hs.
  destruct (feed_from_guarded evs init false init_wf Hb) as (q & Hq).
  - apply guarded_from_no_span; [|done]. apply not_elem_of_nil.
  - done.
  - unfold feed. by rewrite Hq.
Qed.

Lemma no_span_no_error_witness : is_ok (feed step_only) = true.
Proof.
  apply (no_span_no_error step_only).
  - vm_compute. reflexivity.
  - apply (bool_decide_unpack _). vm_compute. exact I.
Defined.

Lemma feed_exceptions_witness :
  KeyError "title" = IndexError ∨
  KeyError "title" = AttributeError "current_item" ∨
  KeyError "title" = AttributeError "current_key" ∨
  ∃ k, KeyError "title" = KeyError k.
Proof.
  apply (feed_exceptions keyless_second_item). vm_compute. reflexivity.
Defined.

(** ** The title and the description of the document *)

Lemma append_assoc (a b c : string) : (a +:+ b) +:+ c = a +:+ b +:+ c.
Proof.
  induction a as [|x a IH]; [done|]. rewrite !append_cons. by rewrite IH.
Qed.

Lemma append_nil_r (a : string) : a +:+ "" = a.
Proof. induction a as [|x a IH]; [done|]. rewrite append_cons. by rewrite IH. Qed.

(** The mode after one event. *)
Lemma handle_state (e : event) (p q : parser) :
  wf p → handle e p = Ok q →
  state q =
  match e with
  | TagOpen tag =>
      if decide (tag = "ul" ∧ (state p = column_mode ∨ state p = item_mode))
      then item_mode else state p
  | TagClose _ => state p
  | Text _ =>
      match last (current_tags p) with
      | None => state p
      | Some tag => mode_after_text tag (state p)
      end
  end.
Proof.
  intros Hwf. destruct e as [tag|tag|raw]; simpl.
  - case_decide as Hd.
    + destruct Hd as [-> Hm].
      destruct (handle_starttag_ul p Hwf Hm) as (cos & col & _ & ->).
      by intros [= <-].
    + rewrite handle_starttag_other by done. by intros [= <-].
  - unfold handle_endtag. destruct (current_tags p); [done|].
    by intros [= <-].
  - intros H.
    destruct (handle_data_Ok raw p q Hwf H)
      as [[-> ->]|(tag & q' & -> & Hs & Hq)]; [done|].
    apply span_or_continuation_frame in Hq as (_ & _ & -> & _).
    apply (before_span_step_state _ _ _ _ Hs).
Qed.

(** One event outside Title mode leaves the title and the description
    alone, and does not lead back to Title mode. *)
Lemma handle_after_title_mode (e : event) (p q : parser) :
  wf p → state p ≠ title_mode → handle e p = Ok q →
  Output.title (output q) = Output.title (output p) ∧
  Output.description (output q) = Output.description (output p) ∧
  state q ≠ title_mode.
Proof.
  intros Hwf Hm He. pose proof (handle_state e p q Hwf He) as Hs.
  split_and!.
  - destruct e as [tag|tag|raw]; simpl in He.
    + destruct (handle_starttag_ok tag p Hwf) as (q' & Hq & _ & _ & Ho & _).
      rewrite Hq in He. injection He as <-. by rewrite Ho.
    + unfold handle_endtag in He. destruct (current_tags p); [done|].
      by injection He as <-.
    + destruct (handle_data_Ok raw p q Hwf He)
        as [[_ ->]|(tag & q' & _ & Hst & Hq)]; [done|].
      apply span_or_continuation_frame in Hq as (-> & _).
      by destruct Hst.
  - destruct e as [tag|tag|raw]; simpl in He.
    + destruct (handle_starttag_ok tag p Hwf) as (q' & Hq & _ & _ & Ho & _).
      rewrite Hq in He. injection He as <-. by rewrite Ho.
    + unfold handle_endtag in He. destruct (current_tags p); [done|].
      by injection He as <-.
    + destruct (handle_data_Ok raw p q Hwf He)
        as [[_ ->]|(tag & q' & _ & Hst & Hq)]; [done|].
      apply span_or_continuation_frame in Hq as (-> & _).
      by destruct Hst.
  - rewrite Hs. destruct e as [tag|tag|raw]; [by case_decide|done|].
    destruct (last (current_tags p)); [|done]. unfold mode_after_text.
    repeat case_decide; done.
Qed.

Lemma feed_from_after_title_mode (evs : list event) (p q : parser) :
  wf p → state p ≠ title_mode → feed_from p evs = Ok q →
  Output.title (output q) = Output.title (output p) ∧
  Output.description (output q) = Output.description (output p).
Proof.
  revert p. induction evs as [|e evs IH]; simpl; intros p Hwf Hm.
  { by intros [= <-]. }
  intros H. apply bind_Ok in H as (p' & He & H).
  destruct (handle_after_title_mode e p p' Hwf Hm He) as (<- & <- & Hm').
  apply IH; [by eapply handle_wf|done..].
Qed.

(** The parser is in Title mode until the first level-2 heading text. *)
Lemma feed_from_title_mode (evs : list event) (p q : parser) :
  wf p → feed_from p evs = Ok q →
  state q = title_mode ↔
  state p = title_mode ∧ texts_under "h2" (current_tags p) evs = [].
Proof.
  revert p. induction evs as [|e evs IH]; simpl; intros p Hwf.
  { intros [= <-]. tauto. }
  intros H. apply bind_Ok in H as (p' & He & H).
  rewrite (IH p' (handle_wf e p p' Hwf He) H).
  rewrite (handle_tags e p p' Hwf He), (handle_state e p p' Hwf He).
  destruct e as [tag|tag|raw]; simpl.
  - case_decide as Hd; [|done]. split; [by intros [? _]|].
    intros [Hm _]. destruct Hd as [_ [Hd|Hd]]; congruence.
  - done.
  - destruct (last (current_tags p)) as [tag|]; simpl.
    + unfold mode_after_text. repeat case_decide; simplify_eq; try tauto;
        try (split; [by intros [? _]|intros [? ?]; done]);
        try (destruct_and?; split; intros [? ?]; congruence).
    + tauto.
Qed.

(** X5: once the first level-2 heading text has been handled, the title and
    the description of the document never change again, whatever follows
    (level-1 headings and paragraphs included). *)
Theorem title_and_description_are_final
    (pre post : list event) (p q : parser) :
  feed pre = Ok p → h2_texts pre ≠ [] → feed (pre ++ post) = Ok q →
  doc_title (document_of q) = doc_title (document_of p) ∧
  doc_description (document_of q) = doc_description (document_of p).
Proof.
  intros Hp Hh2 Hq. unfold feed in *. rewrite feed_from_app, Hp in Hq.
  simpl in Hq. apply (feed_from_after_title_mode post p q); [|  |done].
  - by apply (feed_wf pre).
  - intros Hm. apply Hh2.
    by apply (feed_from_title_mode pre init p init_wf Hp).
Qed.

Lemma title_and_description_are_final_witness :
  doc_title
    (document_of
       (parser_after
          (step_only ++ [TagOpen "h1"; Text (unicode "late"); TagClose "h1"])))
  = doc_title (document_of (parser_after step_only)) ∧
  doc_description
    (document_of
       (parser_after
          (step_only ++ [TagOpen "h1"; Text (unicode "late"); TagClose "h1"])))
  = doc_description (document_of (parser_after step_only)).
Proof.
  apply (title_and_description_are_final step_only
           [TagOpen "h1"; Text (unicode "late"); TagClose "h1"]).
  - vm_compute. reflexivity.
  - vm_compute. discriminate.
  - vm_compute. reflexivity.
Defined.

(** A start or end tag leaves the title, the description and the list of
    steps alone. *)
Lemma handle_tag_output (e : event) (p q : parser) :
  wf p → (∀ raw, e ≠ Text raw) → handle e p = Ok q → output q = output p.
Proof.
  intros Hwf Hne. destruct e as [tag|tag|raw]; simpl.
  - destruct (handle_starttag_ok tag p Hwf) as (q' & -> & _ & _ & Ho & _).
    by intros [= <-].
  - unfold handle_endtag. destruct (current_tags p); [done|].
    by intros [= <-].
  - by destruct (Hne raw).
Qed.

Lemma feed_from_heading (evs : list event) (p q : parser) :
  wf p → state p = title_mode → feed_from p evs = Ok q →
  texts_under "h2" (current_tags p) evs = [] →
  Output.title (output q) =
    default (Output.title (output p))
      (last (texts_under "h1" (current_tags p) evs)) ∧
  Output.description (output q) =
    Output.description (output p)
    +:+ lines (texts_under "p" (current_tags p) evs).
Proof.
  revert p. induction evs as [|e evs IH]; intros p Hwf Hm.
  { simpl. intros [= <-] _. by rewrite append_nil_r. }
  cbn [feed_from texts_under].
  intros H Hh2. apply bind_Ok in H as (p' & He & H).
  pose proof (handle_wf e p p' Hwf He) as Hwf'.
  pose proof (handle_tags e p p' Hwf He) as Ht.
  pose proof (handle_state e p p' Hwf He) as Hs.
  rewrite <- Ht in *.
  destruct e as [tag|tag|raw].
  - rewrite decide_False in Hs by (intros [_ [?|?]]; congruence).
    rewrite <- (handle_tag_output (TagOpen tag) p p' Hwf
                  ltac:(by intros ? ?) He).
    apply IH; [done|congruence|done|done].
  - rewrite <- (handle_tag_output (TagClose tag) p p' Hwf
                  ltac:(by intros ? ?) He).
    apply IH; [done|congruence|done|done].
  - simpl in Ht. rewrite Ht in *.
    destruct (handle_data_Ok raw p p' Hwf He)
      as [[Hl ->]|(tag & q' & Hl & Hst & Hq)].
    + rewrite Hl in *. rewrite !decide_False by done.
      rewrite decide_False in Hh2 by done. by apply IH.
    + rewrite Hl in *. apply span_or_continuation_frame in Hq as (Ho & _).
      destruct (decide (tag = "h2")) as [->|Hne].
      { by rewrite decide_True in Hh2. }
      rewrite decide_False in Hh2 by congruence.
      assert (state p' = title_mode) as Hm'.
      { rewrite Hs. unfold mode_after_text.
        rewrite decide_False by done. rewrite decide_False; [done|].
        intros [_ ?]. congruence. }
      destruct (IH p' Hwf' Hm' H) as [IHt IHd]; [by rewrite Ht|].
      rewrite Ht in IHt, IHd.
      rewrite IHt, IHd, Ho. clear IH IHt IHd H.
      destruct Hst; simpl; try congruence.
      * split; [|done]. rewrite last_cons.
        by destruct (last (texts_under "h1" (current_tags p) evs)).
      * split; [done|]. by rewrite !append_assoc.
      * repeat case_decide; simplify_eq; try done; exfalso; tauto.
Qed.

(** X6: for a document with no level-2 heading text, the title is the last
    text whose innermost tag is a level-1 heading (empty if there is none)
    and the description is the texts whose innermost tag is a paragraph,
    in order, each followed by a newline. *)
Theorem title_and_description_of_the_head (evs : list event) (p : parser) :
  feed evs = Ok p → h2_texts evs = [] →
  doc_title (document_of p) = default "" (last (texts_under "h1" [] evs)) ∧
  doc_description (document_of p) = lines (texts_under "p" [] evs).
Proof.
  intros H Hh2.
  destruct (feed_from_heading evs init p init_wf eq_refl H Hh2) as [Ht Hd].
  split; [exact Ht|]. simpl. rewrite Hd. apply append_nil.
Qed.

Lemma title_and_description_of_the_head_witness :
  doc_title
    (document_of
       (parser_after
          [TagOpen "h1"; Text (unicode "T"); TagClose "h1";
           TagOpen "p"; Text (unicode "a"); TagClose "p";
           TagOpen "p"; Text (unicode "b"); TagClose "p"]))
  = default ""
      (last (texts_under "h1" []
               [TagOpen "h1"; Text (unicode "T"); TagClose "h1";
                TagOpen "p"; Text (unicode "a"); TagClose "p";
                TagOpen "p"; Text (unicode "b"); TagClose "p"])) ∧
  doc_description
    (document_of
       (parser_after
          [TagOpen "h1"; Text (unicode "T"); TagClose "h1";
           TagOpen "p"; Text (unicode "a"); TagClose "p";
           TagOpen "p"; Text (unicode "b"); TagClose "p"]))
  = lines (texts_under "p" []
             [TagOpen "h1"; Text (unicode "T"); TagClose "h1";
              TagOpen "p"; Text (unicode "a"); TagClose "p";
              TagOpen "p"; Text (unicode "b"); TagClose "p"]).
Proof.
  apply (title_and_description_of_the_head
           [TagOpen "h1"; Text (unicode "T"); TagClose "h1";
            TagOpen "p"; Text (unicode "a"); TagClose "p";
            TagOpen "p"; Text (unicode "b"); TagClose "p"]);
    vm_compute; reflexivity.
Defined.

(** ** The description and the column of each step *)

(** The title of a column never changes, and a column stays where it
    is. *)
Lemma column_titles_are_stable (e : event) (p q : parser) (c : ref) :
  wf p → handle e p = Ok q → (c < length (column_store p))%nat →
  Column.title <$> column_store q !! c = Column.title <$> column_store p !! c.
Proof.
  intros Hwf He Hc. destruct e as [tag|tag|raw]; simpl in He.
  - destruct (decide (tag = "ul" ∧ (state p = column_mode ∨ state p = item_mode)))
      as [[-> Hm]|Hno].
    + destruct (handle_starttag_ul p Hwf Hm) as (cos & col & E & Hq).
      rewrite Hq in He. injection He as <-. simpl. rewrite E in *.
      rewrite length_app, Nat.add_1_r in Hc.
      destruct (decide (c = length cos)) as [->|Hne].
      * by rewrite !lookup_snoc.
      * by rewrite !lookup_app_l by lia.
    + rewrite handle_starttag_other in He by done. by injection He as <-.
  - unfold handle_endtag in He. destruct (current_tags p); [done|].
    by injection He as <-.
  - destruct (handle_data_Ok raw p q Hwf He)
      as [[_ ->]|(tag & q' & _ & Hst & Hq)]; [done|].
    apply span_or_continuation_frame in Hq
      as (_ & _ & _ & _ & _ & _ & _ & -> & _).
    destruct Hst; simpl; try done. by rewrite lookup_app_l.
Qed.

Lemma outline_of_stable (e : event) (p q : parser) (st : Step.t) :
  wf p → handle e p = Ok q →
  refs_ok (length (column_store p)) (Step.columns st) →
  outline_of q st = outline_of p st.
Proof.
  intros Hwf He Hok. unfold outline_of. f_equal.
  destruct (Step.columns st) as [cols|]; [|done]. f_equal.
  destruct (Hok cols eq_refl) as [_ Hall].
  apply list_omap_ext, Forall2_same_length_lookup. split; [done|].
  intros i x y Hx Hy. simplify_eq.
  rewrite Forall_forall in Hall.
  pose proof (column_titles_are_stable e p q x Hwf He
                (Hall x (list_elem_of_lookup_2 _ _ _ Hx))) as H.
  destruct (column_store q !! x), (column_store p !! x); simpl in H;
    congruence.
Qed.

Lemma outline_of_store_stable (e : event) (p q : parser) :
  wf p → handle e p = Ok q →
  outline_of q <$> step_store p = outline_of p <$> step_store p.
Proof.
  intros Hwf He. apply list_fmap_ext. intros i st Hst.
  apply (outline_of_stable e p q st Hwf He).
  pose proof (wf_columns p Hwf) as H. rewrite Forall_forall in H.
  apply H. by eapply list_elem_of_lookup_2.
Qed.

Lemma update_last_snoc {A : Type} (f : A → A) (l : list A) (x : A) :
  update_last f (l ++ [x]) = l ++ [f x].
Proof. unfold update_last. by rewrite last_snoc, removelast_last. Qed.


(** One event, on the steps of the store and on the steps read off the
    stream. *)
Lemma handle_outline (e : event) (p q : parser)
    (acc : list (option string * option string)) :
  wf p → handle e p = Ok q →
  outline_of p <$> step_store p = lift_outline <$> acc →
  (state p = step_mode → ∃ acc' d, acc = acc' ++ [(d, None)]) →
  ∃ acc',
    (∀ evs,
       expected_outline_from (current_tags p)
         (bool_decide (state p = step_mode)) acc (e :: evs)
       = expected_outline_from (current_tags q)
           (bool_decide (state q = step_mode)) acc' evs) ∧
    outline_of q <$> step_store q = lift_outline <$> acc' ∧
    (state q = step_mode → ∃ acc'' d, acc' = acc'' ++ [(d, None)]).
Proof.
  intros Hwf He Hsim Hlast.
  pose proof (handle_tags e p q Hwf He) as Ht.
  pose proof (handle_state e p q Hwf He) as Hs.
  pose proof (outline_of_store_stable e p q Hwf He) as Hstable.
  destruct e as [tag|tag|raw].
  - (* a start tag *)
    exists acc.
    assert (step_store q = step_store p) as Es.
    { destruct (handle_starttag_ok tag p Hwf) as (q' & Hq & _ & _ & _ & Es & _).
      simpl in He. rewrite Hq in He. by injection He as <-. }
    assert (bool_decide (state q = step_mode)
            = bool_decide (state p = step_mode)) as Eb.
    { rewrite Hs. case_decide as Hd; [|done].
      rewrite bool_decide_eq_false_2 by done.
      rewrite bool_decide_eq_false_2; [done|].
      destruct Hd as [_ [Hd|Hd]]; congruence. }
    split_and!.
    + intros evs. simpl. by rewrite Ht, Eb.
    + by rewrite Es, Hstable.
    + intros Hq. apply Hlast. rewrite Hs in Hq. by case_decide.
  - (* an end tag *)
    exists acc.
    assert (q = set_current_tags (removelast (current_tags p)) p) as ->.
    { simpl in He. unfold handle_endtag in He.
      destruct (current_tags p); [done|]. by injection He as <-. }
    split_and!; try done.
  - (* a text *)
    simpl in Ht, Hs. rewrite Ht.
    destruct (handle_data_Ok raw p q Hwf He)
      as [[Hl ->]|(tag & q' & Hl & Hst & Hq)].
    { exists acc. split_and!; try done. intros evs. simpl.
      rewrite Hl. by rewrite !decide_False by done. }
    rewrite Hl in Hs. rewrite Hsim in Hstable.
    apply span_or_continuation_frame in Hq
      as (_ & _ & _ & _ & _ & _ & Es & Ec & _).
    rewrite Hs, Es. clear Hs Es He Hsim Ht.
    rename Hstable into Hsim.
    destruct Hst as [p Hm|p Hm|p|p ss st Hm E|p ss st Hm E|p ss st Hm E|tag p].
    + exists acc. split_and!; try done.
      intros evs. simpl. rewrite Hl. rewrite !decide_False by done. done.
    + exists acc. split_and!; try done.
      intros evs. simpl. rewrite Hl. rewrite decide_False by done.
      rewrite decide_True by done. rewrite Hm.
      rewrite bool_decide_eq_false_2 by done. done.
    + exists (acc ++ [(None, None)]). split_and!.
      * intros evs. simpl. rewrite Hl. by rewrite decide_True by done.
      * simpl. by rewrite !fmap_app, Hsim.
      * eauto.
    + exists acc. split_and!; try done.
      * intros evs. simpl. rewrite Hl. rewrite !decide_False by done. done.
      * simpl. rewrite E in Hsim. by rewrite <- Hsim, !fmap_app.
    + destruct (Hlast Hm) as (acc' & d0 & ->).
      rewrite E, !fmap_app in Hsim. simpl in Hsim.
      apply app_inj_tail in Hsim as [Hss Hst].
      exists (acc' ++ [(Some (default "" d0 +:+ encode_utf8 raw +:+ newline),
                        None)]).
      split_and!.
      * intros evs. simpl. rewrite Hl. rewrite decide_False by done.
        rewrite decide_True by done. rewrite Hm.
        rewrite bool_decide_eq_true_2 by done.
        by rewrite update_last_snoc.
      * simpl. rewrite !fmap_app, Hss. simpl. f_equal. f_equal.
        unfold outline_of, lift_outline in *. simpl in *.
        injection Hst as -> Hc. by rewrite Hc.
      * eauto.
    + destruct (Hlast Hm) as (acc' & d0 & ->).
      rewrite E, !fmap_app in Hsim. simpl in Hsim.
      apply app_inj_tail in Hsim as [Hss Hst].
      exists (acc' ++ [(d0, Some (encode_utf8 raw))]).
      split_and!.
      * intros evs. simpl. rewrite Hl. rewrite decide_False by done.
        rewrite decide_False by done. rewrite decide_True by done.
        rewrite Hm. rewrite bool_decide_eq_true_2 by done.
        rewrite bool_decide_eq_false_2 by done.
        by rewrite update_last_snoc.
      * simpl. rewrite !fmap_app, Hss. simpl. f_equal. f_equal.
        unfold outline_of, lift_outline in *. simpl in *.
        injection Hst as -> Hc.
        destruct (Step.columns st) as [cols|]; [discriminate|]. simpl.
        rewrite Ec. simpl. by rewrite lookup_snoc.
      * rewrite Hm. by vm_compute.
    + assert (mode_after_text tag (state p) = state p) as Em.
      { unfold mode_after_text. rewrite decide_False by done.
        rewrite decide_False; [done|]. intros [? ?]. by apply H3. }
      rewrite Em. exists acc. split_and!; try done.
      intros evs. simpl. rewrite Hl.
      repeat case_decide; repeat case_bool_decide; simplify_eq;
        try done; exfalso; tauto.
Qed.

Lemma feed_from_outline (evs : list event) (p q : parser)
    (acc : list (option string * option string)) :
  wf p → feed_from p evs = Ok q →
  outline_of p <$> step_store p = lift_outline <$> acc →
  (state p = step_mode → ∃ acc' d, acc = acc' ++ [(d, None)]) →
  outline_of q <$> step_store q =
  lift_outline <$>
    expected_outline_from (current_tags p)
      (bool_decide (state p = step_mode)) acc evs.
Proof.
  revert p acc. induction evs as [|e evs IH]; intros p acc Hwf.
  { simpl. by intros [= <-]. }
  cbn [feed_from]. intros H Hsim Hlast.
  apply bind_Ok in H as (p' & He & H).
  destruct (handle_outline e p p' acc Hwf He Hsim Hlast)
    as (acc' & Hstep & Hsim' & Hlast').
  rewrite Hstep. apply IH; [by eapply handle_wf|done..].
Qed.

Lemma tree_of_step_outline (p : parser) (st : Step.t) :
  (step_description (tree_of_step p st), column_titles (tree_of_step p st))
  = outline_of p st.
Proof.
  unfold outline_of, column_titles, tree_of_step. simpl. f_equal.
  destruct (Step.columns st) as [cols|]; [|done]. simpl. f_equal.
  rewrite list_fmap_omap. apply list_omap_ext, Forall2_same_length_lookup.
  split; [done|]. intros i x y Hx Hy. simplify_eq. unfold column_of.
  by destruct (column_store p !! x).
Qed.

Lemma feed_outline (evs : list event) (p : parser) :
  feed evs = Ok p →
  (λ s, (step_description s, column_titles s)) <$> steps_in (document_of p)
  = lift_outline <$> expected_outline evs.
Proof.
  intros H. pose proof (feed_wf evs p H) as Hwf.
  unfold steps_in. rewrite (document_steps p Hwf). simpl.
  rewrite <- list_fmap_compose.
  pose proof (feed_from_outline evs init p [] init_wf H) as Ho.
  unfold expected_outline.
  change (expected_outline_from [] false [] evs)
    with (expected_outline_from (current_tags init)
            (bool_decide (state init = step_mode)) [] evs).
  rewrite <- Ho; [|done|done].
  apply list_fmap_ext. intros i st _. apply tree_of_step_outline.
Qed.

(** X7: the description of a step is the paragraph texts that arrive
    between the step's heading and its first level-3 heading text, in
    order, each followed by a newline; a step without such a text has no
    description key.  Paragraphs after the column heading are not part of
    any description. *)
Theorem step_descriptions (evs : list event) (p : parser) :
  feed evs = Ok p →
  step_description <$> steps_in (document_of p)
  = fst <$> expected_outline evs.
Proof.
  intros H. pose proof (feed_outline evs p H) as Ho.
  apply (f_equal (fmap fst)) in Ho.
  rewrite <- !list_fmap_compose in Ho. exact Ho.
Qed.

Lemma step_descriptions_witness :
  step_description <$> steps_in (document_of (parser_after step_only))
  = fst <$> expected_outline step_only.
Proof. apply (step_descriptions step_only). vm_compute. reflexivity. Defined.

(** X8: a step has at most one column.  Its title is the first level-3
    heading text after the step's heading; every later level-3 heading of
    the same step creates nothing. *)
Theorem one_column_per_step (evs : list event) (p : parser) :
  feed evs = Ok p →
  column_titles <$> steps_in (document_of p)
  = (λ s, (λ t, [t]) <$> s.2) <$> expected_outline evs ∧
  Forall (λ s, ∀ cols, step_columns s = Some cols → length cols = 1%nat)
    (steps_in (document_of p)).
Proof.
  intros H. pose proof (feed_outline evs p H) as Ho.
  assert (column_titles <$> steps_in (document_of p)
          = (λ s, (λ t, [t]) <$> s.2) <$> expected_outline evs) as Ht.
  { apply (f_equal (fmap snd)) in Ho.
    rewrite <- !list_fmap_compose in Ho. exact Ho. }
  split; [exact Ht|].
  apply Forall_forall. intros s Hs cols Hcols.
  apply list_elem_of_lookup_1 in Hs as (i & Hi).
  apply (f_equal (λ l, l !! i)) in Ht. rewrite !list_lookup_fmap, Hi in Ht.
  simpl in Ht. unfold column_titles in Ht. rewrite Hcols in Ht.
  destruct (expected_outline evs !! i) as [[d [t|]]|]; simplify_eq/=.
  apply (f_equal length) in Ht. by rewrite length_fmap in Ht.
Qed.

Lemma one_column_per_step_witness :
  column_titles <$> steps_in (document_of (parser_after second_column))
  = (λ s, (λ t, [t]) <$> s.2) <$> expected_outline second_column ∧
  Forall (λ s, ∀ cols, step_columns s = Some cols → length cols = 1%nat)
    (steps_in (document_of (parser_after second_column))).
Proof.
  apply (one_column_per_step second_column). vm_compute. reflexivity.
Defined.

(** On the two-heading document the outline is that of one column. *)
Example expected_outline_second_column :
  expected_outline second_column = [(None, Some "C")] ∧
  expected_outline step_only = [(Some (String "D" newline), None)].
Proof. split; vm_compute; reflexivity. Qed.

(** ** Columns and items belong to one place *)

Lemma bind_snoc {A B : Type} (f : A → list B) (l : list A) (x : A) :
  (l ++ [x]) ≫= f = (l ≫= f) ++ f x.
Proof. by rewrite bind_app, bind_singleton. Qed.

Lemma seq_snoc (n : nat) : seq 0 (S n) = seq 0 n ++ [n].
Proof. by rewrite seq_S. Qed.

Lemma owned_frame (p q : parser) :
  step_store q = step_store p → column_store q = column_store p →
  length (item_store q) = length (item_store p) → owned p → owned q.
Proof.
  unfold owned, column_refs, item_refs. by intros -> -> ->.
Qed.

Lemma before_span_step_owned (data tag : string) (p q : parser) :
  before_span_step data tag p q → owned p → owned q.
Proof.
  unfold owned, column_refs, item_refs.
  destruct 1 as [p|p|p|p ss st Hm Hs|p ss st Hm Hs|p ss st Hm Hs|tag p];
    simpl; try done.
  - rewrite bind_snoc, app_nil_r. done.
  - rewrite Hs, !bind_snoc. done.
  - rewrite Hs, !bind_snoc. done.
  - rewrite Hs, !bind_snoc. simpl. intros [Hc Hi].
    rewrite length_app. cbn [length]. rewrite Nat.add_1_r, seq_snoc, <- Hc.
    by rewrite app_nil_r, app_assoc.
Qed.

Lemma handle_owned (e : event) (p q : parser) :
  wf p → handle e p = Ok q → owned p → owned q.
Proof.
  intros Hwf. destruct e as [tag|tag|raw]; simpl.
  - destruct (decide (tag = "ul" ∧ (state p = column_mode ∨ state p = item_mode)))
      as [[-> Hm]|Hd].
    + destruct (handle_starttag_ul p Hwf Hm) as (cos & col & Hc & ->).
      intros [= <-]. unfold owned, column_refs, item_refs. simpl.
      rewrite Hc, !bind_snoc, !length_app. simpl.
      intros [Ho Hi]. split; [done|].
      cbn [length]. rewrite !Nat.add_1_r, seq_snoc, <- Hi.
      by rewrite app_assoc.
    + rewrite handle_starttag_other by done. by intros [= <-].
  - unfold handle_endtag. destruct (current_tags p); [done|].
    by intros [= <-].
  - intros H.
    destruct (handle_data_Ok raw p q Hwf H)
      as [[_ ->]|(tag & q' & _ & Hs & Hq)]; [done|].
    intros Ho. apply (before_span_step_owned _ _ _ _ Hs) in Ho.
    apply span_or_continuation_frame in Hq
      as (_ & _ & _ & _ & _ & _ & Hss & Hcs & Hl).
    by apply (owned_frame q').
Qed.

Lemma feed_from_owned (evs : list event) (p q : parser) :
  wf p → feed_from p evs = Ok q → owned p → owned q.
Proof.
  revert p. induction evs as [|e evs IH]; intros p Hwf.
  { simpl. by intros [= <-]. }
  cbn [feed_from]. intros H Ho. apply bind_Ok in H as (p' & He & H).
  apply (IH p'); [by eapply handle_wf|done|by eapply handle_owned].
Qed.

Lemma omap_bind {A B C : Type} (f : B → option C) (g : A → list B)
    (l : list A) :
  omap f (l ≫= g) = l ≫= λ x, omap f (g x).
Proof.
  induction l as [|x l IH]; [done|].
  by rewrite !bind_cons, omap_app, IH.
Qed.

Lemma bind_fmap {A B C : Type} (f : A → B) (g : B → list C) (l : list A) :
  (f <$> l) ≫= g = l ≫= λ x, g (f x).
Proof.
  induction l as [|x l IH]; [done|].
  by rewrite fmap_cons, !bind_cons, IH.
Qed.

Lemma bind_ext {A B : Type} (f g : A → list B) (l : list A) :
  (∀ x, f x = g x) → l ≫= f = l ≫= g.
Proof.
  intros H. induction l as [|x l IH]; [done|].
  by rewrite !bind_cons, IH, H.
Qed.

Lemma omap_match_lookup_seq {A B : Type} (f : A → B) (l : list A) :
  omap (λ i, match l !! i with Some x => Some (f x) | None => None end)
    (seq 0 (length l)) = f <$> l.
Proof. apply (omap_lookup_seq f l). Qed.

Lemma columns_of_the_document (p : parser) :
  wf p → owned p →
  columns_in (document_of p) = tree_of_column p <$> column_store p.
Proof.
  intros Hwf [Hc _]. unfold columns_in, steps_in.
  rewrite (document_steps p Hwf). simpl. rewrite bind_fmap.
  rewrite <- (omap_match_lookup_seq (tree_of_column p) (column_store p)).
  rewrite <- Hc. unfold column_refs. rewrite omap_bind.
  apply bind_ext. intros st. unfold tree_of_step. simpl.
  by destruct (Step.columns st).
Qed.

Lemma items_of_the_document (p : parser) :
  wf p → owned p → items_in (document_of p) = item_store p.
Proof.
  intros Hwf Ho. unfold items_in.
  rewrite (columns_of_the_document p Hwf Ho). destruct Ho as [_ Hi].
  rewrite bind_fmap.
  transitivity (id <$> item_store p); [|apply list_fmap_id].
  rewrite <- (omap_lookup_seq id (item_store p)).
  rewrite <- Hi. unfold item_refs. rewrite omap_bind.
  apply bind_ext. intros col. unfold tree_of_column. simpl.
  destruct (Column.items col) as [l|]; [|done]. simpl.
  apply list_omap_ext, Forall2_same_length_lookup. split; [done|].
  intros i x y Hx Hy. simplify_eq. by destruct (item_store p !! x).
Qed.

Lemma init_owned : owned init.
Proof. done. Qed.

(** X9: no dictionary is shared and none is lost.  Every column that was
    created is listed under exactly one step, exactly once, and every item
    under exactly one column, exactly once; walking the steps (the
    columns) in order meets the columns (the items) in the order of their
    creation. *)
Theorem no_object_is_shared (evs : list event) (p : parser) :
  feed evs = Ok p →
  owned p ∧ NoDup (column_refs p) ∧ NoDup (item_refs p) ∧
  (∀ c, (c < length (column_store p))%nat → c ∈ column_refs p) ∧
  (∀ i, (i < length (item_store p))%nat → i ∈ item_refs p).
Proof.
  intros H. pose proof (feed_wf evs p H) as Hwf.
  pose proof (feed_from_owned evs init p init_wf H init_owned) as Ho.
  split; [done|]. destruct Ho as [-> ->].
  split_and!; try apply NoDup_seq.
  - intros c Hc. apply elem_of_seq. lia.
  - intros i Hi. apply elem_of_seq. lia.
Qed.

Lemma no_object_is_shared_witness :
  owned (parser_after second_column) ∧
  NoDup (column_refs (parser_after second_column)) ∧
  NoDup (item_refs (parser_after second_column)) ∧
  (∀ c, (c < length (column_store (parser_after second_column)))%nat →
        c ∈ column_refs (parser_after second_column)) ∧
  (∀ i, (i < length (item_store (parser_after second_column)))%nat →
        i ∈ item_refs (parser_after second_column)).
Proof. apply (no_object_is_shared second_column). vm_compute. reflexivity. Defined.

(** ** The number of items *)

Lemma handle_items_length (e : event) (p q : parser) :
  wf p → handle e p = Ok q →
  length (item_store q) =
  match e with
  | TagOpen tag =>
      if decide (tag = "ul" ∧ (state p = column_mode ∨ state p = item_mode))
      then S (length (item_store p)) else length (item_store p)
  | _ => length (item_store p)
  end.
Proof.
  intros Hwf. destruct e as [tag|tag|raw]; simpl.
  - case_decide as Hd.
    + destruct Hd as [-> Hm].
      destruct (handle_starttag_ul p Hwf Hm) as (cos & col & _ & ->).
      intros [= <-]. simpl. rewrite length_app. simpl. lia.
    + rewrite handle_starttag_other by done. by intros [= <-].
  - unfold handle_endtag. destruct (current_tags p); [done|].
    by intros [= <-].
  - intros H.
    destruct (handle_data_Ok raw p q Hwf H)
      as [[_ ->]|(tag & q' & _ & Hs & Hq)]; [done|].
    apply span_or_continuation_frame in Hq
      as (_ & _ & _ & _ & _ & _ & _ & _ & ->).
    by destruct (before_span_step_frame _ _ _ _ Hs) as (_ & _ & _ & ->).
Qed.

Lemma feed_from_items_length (evs : list event) (p q : parser) :
  wf p → feed_from p evs = Ok q →
  length (item_store q) =
  (length (item_store p)
   + opened_lists_from (current_tags p) (state p) evs)%nat.
Proof.
  revert p. induction evs as [|e evs IH]; intros p Hwf.
  { simpl. intros [= <-]. lia. }
  cbn [feed_from]. intros H. apply bind_Ok in H as (p' & He & H).
  pose proof (handle_wf e p p' Hwf He) as Hwf'.
  rewrite (IH p' Hwf' H).
  rewrite (handle_items_length e p p' Hwf He).
  rewrite (handle_state e p p' Hwf He), (handle_tags e p p' Hwf He).
  destruct e as [tag|tag|raw]; simpl.
  - case_decide; lia.
  - done.
  - by destruct (last (current_tags p)).
Qed.

(** X10: the document has one item for each list that is opened after the
    column heading of its step: a [ul] start tag in Column or Item mode
    creates an item, whatever is open around it, and nothing else does. *)
Theorem one_item_per_list (evs : list event) (p : parser) :
  feed evs = Ok p →
  length (items_in (document_of p)) = opened_lists evs.
Proof.
  intros H. pose proof (feed_wf evs p H) as Hwf.
  pose proof (feed_from_owned evs init p init_wf H init_owned) as Ho.
  rewrite (items_of_the_document p Hwf Ho).
  by rewrite (feed_from_items_length evs init p init_wf H).
Qed.

Lemma one_item_per_list_witness :
  length (items_in (document_of (parser_after second_column)))
  = opened_lists second_column.
Proof.
  apply (one_item_per_list second_column). vm_compute. reflexivity.
Defined.

Example opened_lists_second_column :
  opened_lists second_column = 2%nat ∧
  opened_lists [TagOpen "ul"; TagClose "ul"] = 0%nat.
Proof. split; vm_compute; reflexivity. Qed.

(** ** The keys of the items *)

Lemma is_word_not_space (c : ascii) :
  is_word c = true → Ascii.is_space c = false.
Proof. destruct c as [[] [] [] [] [] [] [] []]; by vm_compute. Qed.

Lemma lstrip_word (s : string) : all_chars is_word s = true → lstrip s = s.
Proof.
  destruct s as [|c s]; [done|]. simpl.
  intros [Hc _]%andb_prop. by rewrite (is_word_not_space c Hc).
Qed.

Lemma all_chars_rev_app (f : ascii → bool) (s acc : string) :
  all_chars f (String.rev_app s acc) = all_chars f s && all_chars f acc.
Proof.
  revert acc. induction s as [|c s IH]; intros acc; [done|].
  simpl. rewrite IH. simpl. by destruct (f c), (all_chars f s).
Qed.

Lemma rev_app_rev_app (s acc acc' : string) :
  String.rev_app (String.rev_app s acc) acc'
  = String.rev_app acc (s +:+ acc').
Proof.
  revert acc. induction s as [|c s IH]; intros acc; [done|].
  simpl. rewrite IH. by rewrite append_cons.
Qed.

Lemma rev_rev (s : string) : String.rev (String.rev s) = s.
Proof.
  unfold String.rev. rewrite rev_app_rev_app. simpl. apply append_nil_r.
Qed.

(** [strip] leaves a run of word characters as it is. *)
Lemma strip_word (s : string) : all_chars is_word s = true → strip s = s.
Proof.
  intros H. unfold strip, rstrip. rewrite (lstrip_word s H).
  rewrite lstrip_word; [apply rev_rev|].
  unfold String.rev. rewrite all_chars_rev_app, H. done.
Qed.

Lemma item_regex_match_key (data g1 g2 : string) :
  item_regex_match data = Some (g1, g2) → is_key (strip g1).
Proof.
  intros (rest & _ & Hne & Hw & _)%item_regex_match_spec.
  by rewrite (strip_word g1 Hw).
Qed.

Lemma keys_ok_insert (its : list item) (i : nat) (it : item) (k v : string) :
  keys_ok its → its !! i = Some it → is_key k ∨ is_Some (it !! k) →
  keys_ok (<[i := <[k := v]> it]> its).
Proof.
  unfold keys_ok. intros Hall Hi Hk.
  pose proof (proj1 (Forall_lookup _ _) Hall i it Hi) as Hit.
  apply Forall_insert; [done|].
  intros k' v' [[<- _]|[_ H]]%lookup_insert_Some; [|by eapply Hit].
  destruct Hk as [Hk|[old Hold]]; [done|by eapply Hit].
Qed.

Lemma deref_Ok {A : Type} (h : list A) (r : ref) (a : A) :
  deref h r = Ok a → h !! r = Some a.
Proof. unfold deref. destruct (h !! r); by intros [= <-]. Qed.

Lemma span_or_continuation_keys (tag data : string) (p q : parser) :
  span_or_continuation tag data p = Ok q →
  keys_ok (item_store p) → keys_ok (item_store q).
Proof.
  unfold span_or_continuation, data_span, data_continuation.
  repeat case_bool_decide; try by intros [= <-].
  - destruct (item_regex_match data) as [[g1 g2]|] eqn:Em; [|by intros [= <-]].
    intros Hq Hk. apply bind_Ok in Hq as (i & _ & Hq).
    apply bind_Ok in Hq as (it & Hit & Hq). injection Hq as <-. simpl.
    apply deref_Ok in Hit. simpl in Hit.
    apply keys_ok_insert; [done..|]. left.
    by eapply item_regex_match_key.
  - intros Hq Hk.
    apply bind_Ok in Hq as (i & _ & Hq). apply bind_Ok in Hq as (k & _ & Hq).
    apply bind_Ok in Hq as (it & Hit & Hq).
    apply bind_Ok in Hq as (old & Hold & Hq).
    injection Hq as <-. simpl. apply deref_Ok in Hit.
    apply keys_ok_insert; [done..|]. right. exists old.
    by destruct (it !! k); simplify_eq/=.
Qed.

Lemma handle_keys (e : event) (p q : parser) :
  wf p → handle e p = Ok q →
  keys_ok (item_store p) → keys_ok (item_store q).
Proof.
  intros Hwf. destruct e as [tag|tag|raw]; simpl.
  - destruct (decide (tag = "ul" ∧ (state p = column_mode ∨ state p = item_mode)))
      as [[-> Hm]|Hd].
    + destruct (handle_starttag_ul p Hwf Hm) as (cos & col & _ & ->).
      intros [= <-]. simpl. intros Hk. apply Forall_app. split; [done|].
      apply Forall_singleton. intros k v. by rewrite lookup_empty.
    + rewrite handle_starttag_other by done. by intros [= <-].
  - unfold handle_endtag. destruct (current_tags p); [done|].
    by intros [= <-].
  - intros H.
    destruct (handle_data_Ok raw p q Hwf H)
      as [[_ ->]|(tag & q' & _ & Hs & Hq)]; [done|].
    intros Hk. apply (span_or_continuation_keys _ _ _ _ Hq).
    by destruct (before_span_step_frame _ _ _ _ Hs) as (_ & _ & _ & ->).
Qed.

Lemma feed_from_keys (evs : list event) (p q : parser) :
  wf p → feed_from p evs = Ok q →
  keys_ok (item_store p) → keys_ok (item_store q).
Proof.
  revert p. induction evs as [|e evs IH]; intros p Hwf.
  { simpl. by intros [= <-]. }
  cbn [feed_from]. intros H Hk. apply bind_Ok in H as (p' & He & H).
  apply (IH p'); [by eapply handle_wf|done|by eapply handle_keys].
Qed.

(** X11: every key of every item of the document is a non-empty run of
    letters, digits and underscores: a key only ever comes from group 1 of
    the pattern, which [strip] leaves as it is, and the text of a nested
    tag is appended to a key that exists. *)
Theorem keys_are_identifiers (evs : list event) (p : parser) :
  feed evs = Ok p → keys_ok (items_in (document_of p)).
Proof.
  intros H. pose proof (feed_wf evs p H) as Hwf.
  pose proof (feed_from_owned evs init p init_wf H init_owned) as Ho.
  rewrite (items_of_the_document p Hwf Ho).
  apply (feed_from_keys evs init p init_wf H). by apply Forall_nil.
Qed.

Lemma keys_are_identifiers_witness :
  keys_ok (items_in (document_of (parser_after nested_span))).
Proof. apply (keys_are_identifiers nested_span). vm_compute. reflexivity. Defined.

Example items_of_nested_span :
  items_in (document_of (parser_after nested_span))
  = [{["title" := "Foo Bar"]}].
Proof. vm_compute. reflexivity. Qed.

(** ** The token, the request and the output *)

Section Script.

Variable py_str : json → string.
Variable html_events : string → list event.
Variable yaml_dump : document → string.

Lemma dict_get_Ok (v x : json) (k : string) :
  dict_get v k = Ok x → ∃ m, v = JObject m ∧ x = default JNull (member k m).
Proof. destruct v; simpl; try discriminate. intros [= <-]. eauto. Qed.

Lemma subscript_Ok (v x : json) (k : string) :
  subscript v k = Ok x → ∃ m, v = JObject m ∧ member k m = Some x.
Proof.
  destruct v as [| | | | |m]; simpl; try discriminate.
  destruct (member k m) eqn:E; [|discriminate]. intros [= <-]. eauto.
Qed.

Lemma token_of_config_Ok (data : json) (tok : string) :
  token_of_config py_str data = Ok tok →
  ∃ sites k config token,
    subscript data "sites" = Ok (JObject sites) ∧
    member k sites = Some config ∧ truthy config = true ∧
    subscript config "accessToken" = Ok token ∧ str py_str token = Ok tok ∧
    (k = "quip.com" ∨
     truthy (default JNull (member "quip.com" sites)) = false ∧
     ∃ c rest, sites = (k, c) :: rest).
Proof.
  unfold token_of_config. intros H.
  apply bind_Ok in H as (sites & Hsites & H).
  apply bind_Ok in H as (config & Hconfig & H).
  apply dict_get_Ok in Hconfig as (m & -> & ->).
  apply bind_Ok in H as ([config' fs] & Hr & H).
  apply bind_Ok in H as ([] & Hassert & H).
  apply bind_Ok in H as (token & Htoken & Hstr).
  assert (truthy config' = true) as Ht.
  { apply subscript_Ok in Htoken as (m' & -> & Hm'). by destruct m'. }
  exists m. destruct (truthy (default JNull (member "quip.com" m))) eqn:Eq;
    simpl in Hr.
  - injection Hr as <- <-. exists "quip.com", (default JNull (member "quip.com" m)), token.
    split_and!; try done; [|by left].
    destruct (member "quip.com" m); [done|discriminate].
  - apply bind_Ok in Hr as (first_site & Hfs & Hr).
    apply bind_Ok in Hr as (c & Hc & Hr). injection Hr as <- <-.
    destruct m as [|[k x] rest]; [discriminate|]. injection Hfs as <-.
    destruct (truthy (JString k)) eqn:Ek.
    + exists k, c, token. simpl in Hc.
      destruct (decide (k = k)); [|done]. injection Hc as <-.
      split_and!; try done.
      * simpl. by rewrite decide_True.
      * right. eauto.
    + injection Hc as <-. simpl in Eq. congruence.
Qed.

(** X13: a token that [get_token] returns is a non-empty value of
    [QUIP_TOKEN], and then the file is not opened; or the variable is unset
    or empty and the token is [str] of the [accessToken] of a site of the
    file with a non-empty configuration, which is the site [quip.com] or
    the first site of the file. *)
Theorem token_is_of_the_variable_or_of_a_site (w : world) (tok : string) :
  (get_token py_str w).2 = Ok tok →
  (environ w !! "QUIP_TOKEN" = Some tok ∧ tok ≠ "" ∧
   (get_token py_str w).1 = [GetEnv "QUIP_TOKEN"]) ∨
  ((environ w !! "QUIP_TOKEN" = None ∨ environ w !! "QUIP_TOKEN" = Some "") ∧
   (get_token py_str w).1 = [GetEnv "QUIP_TOKEN"; OpenFile "~/.quiprc"] ∧
   ∃ data sites k config token,
     quiprc w = Some (Some data) ∧
     subscript data "sites" = Ok (JObject sites) ∧
     member k sites = Some config ∧ truthy config = true ∧
     subscript config "accessToken" = Ok token ∧ str py_str token = Ok tok ∧
     (k = "quip.com" ∨
      truthy (default JNull (member "quip.com" sites)) = false ∧
      ∃ c rest, sites = (k, c) :: rest)).
Proof.
  unfold get_token.
  destruct (environ w !! "QUIP_TOKEN") as [[|c t]|] eqn:Ee; simpl.
  - destruct (quiprc w) as [[data|]|]; try discriminate.
    intros (sites & k & config & token & H)%token_of_config_Ok.
    right. split_and!; [by right|done|]. by exists data, sites, k, config, token.
  - intros [= <-]. by left.
  - destruct (quiprc w) as [[data|]|]; try discriminate.
    intros (sites & k & config & token & H)%token_of_config_Ok.
    right. split_and!; [by left|done|]. by exists data, sites, k, config, token.
Qed.

Lemma member_falsy (key : string) (sites : list (string * json)) :
  Forall (λ kc, truthy kc.2 = false) sites →
  truthy (default JNull (member key sites)) = false.
Proof.
  induction 1 as [|[k c] sites Hc _ IH]; [done|].
  simpl. by case_decide.
Qed.

(** X14: what a user who is not logged in gets.  With no usable variable
    and a file in which no site has a configuration, [get_token] fails
    after opening the file: with the [StopIteration] of [next] when the file
    lists no site, and else with the [KeyError] or the [TypeError] of the
    token lookup in an empty configuration.  The login message is in none
    of them. *)
Theorem logged_out_failures
    (w : world) (data : json) (sites : list (string * json)) :
  environ w !! "QUIP_TOKEN" = None ∨ environ w !! "QUIP_TOKEN" = Some "" →
  quiprc w = Some (Some data) →
  subscript data "sites" = Ok (JObject sites) →
  Forall (λ kc, truthy kc.2 = false) sites →
  ∃ e,
    get_token py_str w
    = ([GetEnv "QUIP_TOKEN"; OpenFile "~/.quiprc"], Raise e) ∧
    match sites with
    | [] => e = StopIteration
    | _ :: _ => e = KeyError "accessToken" ∨ e = TypeError
    end.
Proof.
  intros Henv Hfile Hsites Hall.
  assert (get_token py_str w
          = ([GetEnv "QUIP_TOKEN"; OpenFile "~/.quiprc"],
             token_of_config py_str data)) as ->.
  { unfold get_token. destruct Henv as [-> | ->]; simpl; by rewrite Hfile. }
  unfold token_of_config. rewrite Hsites. cbn [bind dict_get].
  pose proof (member_falsy "quip.com" sites Hall) as Hq. rewrite Hq.
  destruct sites as [|[k c] rest]; [by exists StopIteration|].
  set (config := default JNull (member "quip.com" ((k, c) :: rest))) in *.
  apply Forall_cons in Hall as [Hc _]. simpl in Hc.
  assert (∃ config',
            truthy config' = false ∧
            (if truthy (JString k)
             then match JString k with
                  | JString k' => subscript (JObject ((k, c) :: rest)) k'
                  | _ => Raise TypeError
                  end
             else Ok config) = Ok config') as (config' & Hf & Hcfg).
  { destruct (truthy (JString k)); [|by exists config].
    exists c. split; [done|]. simpl. by rewrite decide_True. }
  cbn [negb first_key bind]. rewrite Hcfg. cbn [bind]. rewrite Hf.
  cbn [negb bind is_not_None].
  destruct (subscript_falsy config' "accessToken" Hf) as [-> | ->]; eauto.
Qed.

Lemma get_token_trace (w : world) :
  (get_token py_str w).1 = [GetEnv "QUIP_TOKEN"] ∨
  (get_token py_str w).1 = [GetEnv "QUIP_TOKEN"; OpenFile "~/.quiprc"].
Proof.
  unfold get_token.
  destruct (environ w !! "QUIP_TOKEN") as [[|c t]|]; simpl; auto.
Qed.

Lemma fetch_doc_trace (d : string) (w : world) :
  (fetch_doc py_str d w).1 =
  (get_token py_str w).1 ++
  match (get_token py_str w).2 with
  | Ok tok =>
      [UrlOpen ("https://platform.quip.com/1/threads/" +:+ d)
         ("Bearer " +:+ tok)]
  | Raise _ => []
  end.
Proof.
  unfold fetch_doc. destruct (get_token py_str w) as [tr [tok|e]]; simpl;
    [done|by rewrite app_nil_r].
Qed.

Lemma fetch_doc_Ok (d : string) (w : world) (doc : json) :
  (fetch_doc py_str d w).2 = Ok doc → ∃ tok, (get_token py_str w).2 = Ok tok.
Proof.
  unfold fetch_doc. destruct (get_token py_str w) as [tr [tok|e]]; simpl;
    [eauto|discriminate].
Qed.

Lemma main_trace (d : string) (w : world) :
  (main py_str html_events yaml_dump d w).1 =
  (fetch_doc py_str d w).1 ++
  match (main py_str html_events yaml_dump d w).2 with
  | Ok _ =>
      match (fetch_doc py_str d w).2 with
      | Ok doc =>
          match parse_document html_events yaml_dump doc with
          | Ok yaml => [Print yaml]
          | Raise _ => []
          end
      | Raise _ => []
      end
  | Raise _ => []
  end.
Proof.
  unfold main. destruct (fetch_doc py_str d w) as [tr [doc|e]]; simpl.
  - destruct (parse_document html_events yaml_dump doc); simpl;
      [done|by rewrite app_nil_r].
  - by rewrite app_nil_r.
Qed.

Lemma doc_id_Ok (argv : list string) (d : string) :
  doc_id argv = Ok d ↔ argv !! 1%nat = Some d ∧ d ≠ "".
Proof.
  unfold doc_id. destruct (argv !! 1%nat) as [[|c s]|]; split;
    try discriminate; try (by intros [[=] ?]);
    [intros [= <-]|intros [[= <-] ?]]; done.
Qed.

Ltac not_in_trace :=
  repeat (apply not_elem_of_cons; split; [discriminate|]);
  apply not_elem_of_nil.

Lemma get_token_no_request (w : world) (url authorization : string) :
  UrlOpen url authorization ∉ (get_token py_str w).1.
Proof.
  destruct (get_token_trace w) as [-> | ->]; not_in_trace.
Qed.

Lemma get_token_no_print (w : world) (text : string) :
  Print text ∉ (get_token py_str w).1.
Proof.
  destruct (get_token_trace w) as [-> | ->]; not_in_trace.
Qed.

Lemma fetch_doc_no_print (d : string) (w : world) (text : string) :
  Print text ∉ (fetch_doc py_str d w).1.
Proof.
  rewrite fetch_doc_trace. intros [H|H]%elem_of_app.
  - by apply get_token_no_print in H.
  - revert H. destruct (get_token py_str w).2; not_in_trace.
Qed.

(** X15: a request is only sent for a document id that is not empty and
    with a token that [get_token] returned; its address is the fixed
    prefix followed by the id as it was given, and its authorization is
    [Bearer] followed by the token. *)
Theorem request_needs_id_and_token
    (argv : list string) (w : world) (url authorization : string) :
  UrlOpen url authorization
    ∈ (script py_str html_events yaml_dump argv w).1 →
  ∃ d tok,
    argv !! 1%nat = Some d ∧ d ≠ "" ∧ (get_token py_str w).2 = Ok tok ∧
    url = "https://platform.quip.com/1/threads/" +:+ d ∧
    authorization = "Bearer " +:+ tok.
Proof.
  unfold script. destruct (doc_id argv) as [d|e] eqn:Ed;
    [|by intros ?%elem_of_nil].
  apply doc_id_Ok in Ed as [Hd Hne].
  rewrite main_trace, fetch_doc_trace.
  intros [[H|H]%elem_of_app|H]%elem_of_app.
  - by apply get_token_no_request in H.
  - destruct (get_token py_str w).2 as [tok|]; [|by apply elem_of_nil in H].
    apply list_elem_of_singleton in H. injection H as -> ->.
    by exists d, tok.
  - exfalso. revert H.
    destruct (main py_str html_events yaml_dump d w).2; [|not_in_trace].
    destruct (fetch_doc py_str d w).2; [|not_in_trace].
    destruct (parse_document html_events yaml_dump _); not_in_trace.
Qed.

(** X16: the script prints nothing unless every step succeeded.  When it
    succeeds, the one thing it prints, last, is the dump of the document of
    the parser fed with the [html] member of the answer; when it fails, it
    has printed nothing. *)
Theorem output_only_on_success (argv : list string) (w : world) :
  match (script py_str html_events yaml_dump argv w).2 with
  | Ok _ =>
      ∃ tr d doc h p,
        (script py_str html_events yaml_dump argv w).1
        = tr ++ [Print (yaml_dump (document_of p))] ∧
        (∀ text, Print text ∉ tr) ∧
        doc_id argv = Ok d ∧ (fetch_doc py_str d w).2 = Ok doc ∧
        subscript doc "html" = Ok (JString h) ∧
        feed (html_events h) = Ok p
  | Raise _ =>
      ∀ text, Print text ∉ (script py_str html_events yaml_dump argv w).1
  end.
Proof.
  unfold script. destruct (doc_id argv) as [d|e] eqn:Ed; simpl;
    [|intros text; not_in_trace].
  pose proof (fetch_doc_no_print d w) as Hnp. unfold main.
  destruct (fetch_doc py_str d w) as [tr [doc|e]] eqn:Ef; simpl in *; [|done].
  destruct (parse_document html_events yaml_dump doc) as [yaml|e] eqn:Ep;
    simpl; [|done].
  unfold parse_document in Ep.
  apply bind_Ok in Ep as (html & Hhtml & Ep).
  apply bind_Ok in Ep as (p & Hp & Ep). injection Ep as <-.
  destruct html as [| | |h| |]; try discriminate.
  exists tr, d, doc, h, p. split_and!; try done. by rewrite Ef.
Qed.

End Script.

Lemma token_is_of_the_variable_or_of_a_site_witness :
  (environ two_sites_world !! "QUIP_TOKEN" = Some "abc" ∧ "abc" ≠ "" ∧
   (get_token str_opaque two_sites_world).1 = [GetEnv "QUIP_TOKEN"]) ∨
  ((environ two_sites_world !! "QUIP_TOKEN" = None ∨
    environ two_sites_world !! "QUIP_TOKEN" = Some "") ∧
   (get_token str_opaque two_sites_world).1
   = [GetEnv "QUIP_TOKEN"; OpenFile "~/.quiprc"] ∧
   ∃ data sites k config token,
     quiprc two_sites_world = Some (Some data) ∧
     subscript data "sites" = Ok (JObject sites) ∧
     member k sites = Some config ∧ truthy config = true ∧
     subscript config "accessToken" = Ok token ∧
     str str_opaque token = Ok "abc" ∧
     (k = "quip.com" ∨
      truthy (default JNull (member "quip.com" sites)) = false ∧
      ∃ c rest, sites = (k, c) :: rest)).
Proof.
  apply (token_is_of_the_variable_or_of_a_site str_opaque two_sites_world).
  vm_compute. reflexivity.
Defined.

Lemma logged_out_failures_witness :
  ∃ e,
    get_token str_opaque
      (mk_world ∅ (config_file [("example.com", JObject [])]) offline)
    = ([GetEnv "QUIP_TOKEN"; OpenFile "~/.quiprc"], Raise e) ∧
    (e = KeyError "accessToken" ∨ e = TypeError).
Proof.
  apply (logged_out_failures str_opaque
           (mk_world ∅ (config_file [("example.com", JObject [])]) offline)
           (JObject [("sites", JObject [("example.com", JObject [])])])
           [("example.com", JObject [])]).
  - left. vm_compute. reflexivity.
  - reflexivity.
  - reflexivity.
  - constructor; [reflexivity|constructor].
Defined.

Lemma request_needs_id_and_token_witness :
  ∃ d tok,
    ["generate_yaml.py"; "abc"] !! 1%nat = Some d ∧ d ≠ "" ∧
    (get_token str_opaque variable_world).2 = Ok tok ∧
    "https://platform.quip.com/1/threads/abc"
    = "https://platform.quip.com/1/threads/" +:+ d ∧
    "Bearer secret" = "Bearer " +:+ tok.
Proof.
  apply (request_needs_id_and_token str_opaque (λ _, []) (λ _, "")
           ["generate_yaml.py"; "abc"] variable_world).
  vm_compute. apply list_elem_of_further, list_elem_of_here.
Defined.

(** ** The item pattern, read as a regular expression *)

Lemma span_of_app (f : ascii → bool) (a b : string) :
  all_chars f a = true → stops f b → span_of f (a +:+ b) = (a, b).
Proof. intros Ha Hb. by apply span_of_spec. Qed.

Lemma span_of_prefix (f : ascii → bool) (a b : string) :
  all_chars f a = true → ∃ a', (span_of f (a +:+ b)).1 = a +:+ a'.
Proof.
  induction a as [|c a IH]; simpl.
  - intros _. exists (span_of f b).1. by rewrite !append_nil.
  - intros [Hc Ha]%andb_prop. destruct (IH Ha) as (a' & Ea).
    exists a'. rewrite !append_cons. simpl. rewrite Hc.
    destruct (span_of f (a +:+ b)) as [x y]. simpl in *. by rewrite Ea.
Qed.

Lemma length_append (a b : string) :
  String.length (a +:+ b) = (String.length a + String.length b)%nat.
Proof.
  induction a as [|c a IH]; [by rewrite append_nil|].
  rewrite append_cons. simpl. by rewrite IH.
Qed.

Lemma reads_as_match (data k v : string) :
  reads_as data k v → ∃ a, item_regex_match data = Some (k, v +:+ a).
Proof.
  intros (rest & -> & Hk & Hkw & Hv & Hvd).
  unfold item_regex_match.
  rewrite (span_of_app is_word k (":" +:+ v +:+ rest) Hkw) by done.
  destruct k as [|c k]; [done|]. rewrite append_cons, append_nil.
  destruct (span_of_prefix is_dot v rest Hvd) as (a & ->).
  exists a. destruct v as [|d v]; [done|]. by rewrite append_cons.
Qed.

Lemma match_reads_as (data k v : string) :
  item_regex_match data = Some (k, v) → reads_as data k v.
Proof.
  intros (rest & H & Hk & Hkw & Hv & Hvd & _)%item_regex_match_spec.
  by exists rest.
Qed.

(** X17: the groups that the matcher takes, against the pattern read as a
    regular expression.  A text has at most one key under all its readings
    as [(\w+):(.+)]; the matcher succeeds exactly when there is a reading,
    and it takes that key and the longest value of any reading. *)
Theorem groups_of_the_pattern (data : string) :
  (∀ k v,
     item_regex_match data = Some (k, v) ↔
     reads_as data k v ∧
     ∀ k' v', reads_as data k' v' →
              k' = k ∧ (String.length v' ≤ String.length v)%nat) ∧
  (item_regex_match data = None ↔ ∀ k v, ¬ reads_as data k v).
Proof.
  split.
  - intros k v. split.
    + intros H. split; [by apply match_reads_as|].
      intros k' v' (a & Ha)%reads_as_match. rewrite H in Ha.
      injection Ha as -> ->. split; [done|]. rewrite length_append. lia.
    + intros [Hr Hmax]. destruct (reads_as_match _ _ _ Hr) as (a & Ha).
      destruct (Hmax k (v +:+ a) (match_reads_as _ _ _ Ha)) as [_ Hl].
      rewrite length_append in Hl.
      destruct a as [|c a]; [by rewrite append_nil_r in Ha|].
      simpl in Hl. lia.
  - split.
    + intros H k v (a & Ha)%reads_as_match. congruence.
    + intros H. destruct (item_regex_match data) as [[k v]|] eqn:E; [|done].
      by apply match_reads_as, H in E.
Qed.

(** ** The bytes of the encoding *)

Lemma high_bit (m : N) : N.testbit m 7 = true → 128 ≤ m.
Proof.
  intros H. destruct (decide (m < 128)) as [Hlt|]; [|lia].
  apply N.testbit_true in H. change (2 ^ 7) with 128 in H.
  rewrite N.div_small in H by done. discriminate.
Qed.

Lemma byte_of_lor (k x : N) :
  N.testbit k 7 = true → 128 ≤ N_of_ascii (byte_of (N.lor k x)).
Proof.
  intros Hk. unfold byte_of.
  rewrite N_ascii_embedding by (apply N.mod_lt; lia).
  apply high_bit. change 256 with (2 ^ 8).
  rewrite N.mod_pow2_bits_low by lia.
  by rewrite N.lor_spec, Hk.
Qed.

Lemma encode_code_point_high (c : N) :
  128 ≤ c → Forall (λ b, 128 ≤ b) (bytes (encode_code_point c)).
Proof.
  intros Hc. unfold encode_code_point.
  assert ((c <? 128) = false) as -> by (by apply N.ltb_ge).
  unfold bytes.
  destruct (c <? 2048); [|destruct (c <? 65536)]; simpl;
    repeat (apply Forall_cons; split; [by apply byte_of_lor|]);
    apply Forall_nil_2.
Qed.

Lemma is_word_ascii (b : ascii) : is_word b = true → N_of_ascii b < 128.
Proof. destruct b as [[] [] [] [] [] [] [] []]; by vm_compute. Qed.

Lemma encode_code_point_cons (c : N) :
  ∃ b s, encode_code_point c = String b s.
Proof.
  unfold encode_code_point.
  destruct (c <? 128); [|destruct (c <? 2048); [|destruct (c <? 65536)]];
    eauto.
Qed.

(** X18: every byte of the encoding of a character that is not ASCII has
    its high bit set.  No such byte is a word character, so a span text
    that starts with such a character never matches the item pattern. *)
Theorem non_ascii_start_is_no_key (c : N) (raw : list N) :
  128 ≤ c →
  Forall (λ b, 128 ≤ b) (bytes (encode_code_point c)) ∧
  item_regex_match (encode_utf8 (c :: raw)) = None.
Proof.
  intros Hc. pose proof (encode_code_point_high c Hc) as Hh.
  split; [done|]. simpl.
  destruct (encode_code_point_cons c) as (b & s & E). rewrite E in *.
  unfold bytes in Hh. simpl in Hh. apply Forall_cons in Hh as [Hb _].
  unfold item_regex_match. rewrite append_cons. simpl.
  destruct (is_word b) eqn:Ew; [|done].
  apply is_word_ascii in Ew. lia.
Qed.

Lemma non_ascii_start_is_no_key_witness :
  Forall (λ b, 128 ≤ b) (bytes (encode_code_point 233)) ∧
  item_regex_match (encode_utf8 (233 :: unicode "tape: 1")) = None.
Proof. apply (non_ascii_start_is_no_key 233). lia. Defined.

Example encode_code_point_examples :
  bytes (encode_code_point 233) = [195; 169] ∧
  bytes (encode_code_point 8364) = [226; 130; 172] ∧
  bytes (encode_code_point 128512) = [240; 159; 152; 128].
Proof. split_and!; vm_compute; reflexivity. Qed.

Lemma encode_utf8_unicode_ascii_witness :
  encode_utf8 (unicode "title: Foo") = "title: Foo".
Proof.
  apply (encode_utf8_unicode_ascii "title: Foo").
  repeat (constructor; [vm_compute; reflexivity|]). constructor.
Defined.

(** ** The items, and the column of each *)

Lemma insert_update_last {A : Type} (f : A → A) (l : list A) (i : nat) (x : A) :
  last_ref l = Some i → l !! i = Some x → <[i := f x]> l = update_last f l.
Proof.
  intros Hi Hx. destruct (decide (l = [])) as [->|Hne]; [done|].
  destruct (snoc_view l Hne) as (l' & y & ->).
  rewrite last_ref_snoc in Hi. injection Hi as <-.
  rewrite lookup_snoc in Hx. injection Hx as <-.
  by rewrite insert_snoc, update_last_snoc.
Qed.

Lemma attr_Ok {A : Type} (name : string) (o : option A) (a : A) :
  attr name o = Ok a → o = Some a.
Proof. destruct o; simpl; [by intros [= <-]|discriminate]. Qed.

Lemma item_of_Ok {A : Type} (key : string) (o : option A) (a : A) :
  item_of key o = Ok a → o = Some a.
Proof. destruct o; simpl; [by intros [= <-]|discriminate]. Qed.

Lemma span_or_continuation_items (tag data : string) (p q : parser) :
  wf p → span_or_continuation tag data p = Ok q →
  (current_key q, item_store q)
  = items_after_text tag data (current_tags p) (state p)
      (current_key p) (item_store p).
Proof.
  intros Hwf. unfold span_or_continuation, items_after_text.
  unfold data_span, data_continuation.
  case_bool_decide as H1.
  - rewrite decide_True by done.
    destruct (item_regex_match data) as [[g1 g2]|]; [|by intros [= <-]].
    intros Hq. apply bind_Ok in Hq as (i & Hi & Hq).
    apply bind_Ok in Hq as (it & Hit & Hq). injection Hq as <-. simpl in *.
    apply attr_Ok in Hi. apply deref_Ok in Hit.
    rewrite (wf_current_item p Hwf) in Hi.
    by rewrite (insert_update_last (<[strip g1 := strip g2]>) _ i it).
  - rewrite decide_False by done. case_bool_decide as H2.
    + rewrite decide_True by done. intros Hq.
      apply bind_Ok in Hq as (i & Hi & Hq).
      apply bind_Ok in Hq as (k & Hk & Hq).
      apply bind_Ok in Hq as (it & Hit & Hq).
      apply bind_Ok in Hq as (old & Hold & Hq).
      injection Hq as <-. simpl.
      apply attr_Ok in Hi. apply attr_Ok in Hk. apply deref_Ok in Hit.
      apply item_of_Ok in Hold.
      rewrite (wf_current_item p Hwf) in Hi. rewrite Hk.
      rewrite <- (insert_update_last (append_to (Some k) data) _ i it)
        by done.
      simpl. by rewrite Hold.
    + rewrite decide_False by done. by intros [= <-].
Qed.

Lemma mode_after_text_span (m : mode) : mode_after_text "span" m = m.
Proof.
  unfold mode_after_text. rewrite decide_False by done.
  rewrite decide_False; [done|]. by intros [? _].
Qed.

Lemma items_after_text_mode (tag d : string) (tags : list string) (m : mode)
    (key : option string) (acc : list item) :
  items_after_text tag d tags (mode_after_text tag m) key acc
  = items_after_text tag d tags m key acc.
Proof.
  unfold items_after_text.
  destruct (decide (tag = "span")) as [->|Hne].
  - by rewrite mode_after_text_span.
  - rewrite !(decide_False (P := tag = "span" ∧ _)); [done|..];
      by intros [? _].
Qed.

Lemma handle_items (e : event) (p q : parser) :
  wf p → handle e p = Ok q →
  ∀ evs,
    expected_items_from (current_tags p) (state p) (current_key p)
      (item_store p) (e :: evs)
    = expected_items_from (current_tags q) (state q) (current_key q)
        (item_store q) evs.
Proof.
  intros Hwf He evs. destruct e as [tag|tag|raw]; simpl in *.
  - case_decide as Hd.
    + destruct Hd as [-> Hm].
      destruct (handle_starttag_ul p Hwf Hm) as (cos & col & _ & Hq).
      rewrite Hq in He. by injection He as <-.
    + rewrite handle_starttag_other in He by done. by injection He as <-.
  - assert (q = set_current_tags (removelast (current_tags p)) p) as ->.
    { unfold handle_endtag in He.
      destruct (current_tags p); [done|]. by injection He as <-. }
    done.
  - destruct (handle_data_Ok raw p q Hwf He)
      as [[Hl ->]|(tag & q' & Hl & Hst & Hq)]; rewrite Hl; [done|].
    pose proof (before_span_step_wf _ _ _ _ Hwf Hst) as Hwf'.
    pose proof (span_or_continuation_items _ _ _ _ Hwf' Hq) as Hi.
    apply span_or_continuation_frame in Hq as (_ & -> & -> & _).
    pose proof (before_span_step_state _ _ _ _ Hst) as Hs.
    destruct (before_span_step_frame _ _ _ _ Hst) as (Et & _ & Ek & Ei).
    rewrite Et, Ek, Ei in *.
    change (state q' = mode_after_text tag (state p)) in Hs.
    rewrite Hs, items_after_text_mode in Hi.
    by rewrite <- Hi, Hs.
Qed.

Lemma feed_from_items (evs : list event) (p q : parser) :
  wf p → feed_from p evs = Ok q →
  item_store q
  = expected_items_from (current_tags p) (state p) (current_key p)
      (item_store p) evs.
Proof.
  revert p. induction evs as [|e evs IH]; intros p Hwf.
  { simpl. by intros [= <-]. }
  cbn [feed_from]. intros H. apply bind_Ok in H as (p' & He & H).
  rewrite (handle_items e p p' Hwf He).
  apply IH; [by eapply handle_wf|done].
Qed.

(** X20: the items of the document, in document order, are what the event
    stream says: a list opened after a column heading creates an empty
    item; a span text in Item mode that matches the pattern sets the
    trimmed key of the item created last to the trimmed value; every other
    text below an open span is appended, untrimmed, to the value of the
    current key in the item created last, in whatever column or step that
    item is. *)
Theorem items_of_the_document_are_expected (evs : list event) (p : parser) :
  feed evs = Ok p → items_in (document_of p) = expected_items evs.
Proof.
  intros H. pose proof (feed_wf evs p H) as Hwf.
  pose proof (feed_from_owned evs init p init_wf H init_owned) as Ho.
  rewrite (items_of_the_document p Hwf Ho).
  apply (feed_from_items evs init p init_wf H).
Qed.

Lemma items_of_the_document_are_expected_witness :
  items_in (document_of (parser_after after_second_step))
  = expected_items after_second_step.
Proof.
  apply (items_of_the_document_are_expected after_second_step).
  vm_compute. reflexivity.
Defined.

Example expected_items_examples :
  expected_items nested_span = [{["title" := "Foo Bar"]}] ∧
  expected_items two_spans = [{["title" := "Foo"]}] ∧
  expected_items after_second_step = [{["title" := "Xmore"]}].
Proof. split_and!; vm_compute; reflexivity. Qed.

Lemma handle_item_counts (e : event) (p q : parser) :
  wf p → handle e p = Ok q →
  ∀ evs,
    expected_item_counts_from (current_tags p) (state p) (item_counts p)
      (e :: evs)
    = expected_item_counts_from (current_tags q) (state q) (item_counts q)
        evs.
Proof.
  intros Hwf He evs. unfold item_counts.
  destruct e as [tag|tag|raw]; simpl in *.
  - case_decide as Hd.
    + destruct Hd as [-> Hm].
      destruct (handle_starttag_ul p Hwf Hm) as (cos & col & Hc & Hq).
      rewrite Hq in He. injection He as <-. simpl.
      rewrite Hc, !fmap_app. simpl. rewrite update_last_snoc.
      rewrite length_app. simpl. by rewrite Nat.add_1_r.
    + rewrite handle_starttag_other in He by done. by injection He as <-.
  - assert (q = set_current_tags (removelast (current_tags p)) p) as ->.
    { unfold handle_endtag in He.
      destruct (current_tags p); [done|]. by injection He as <-. }
    done.
  - destruct (handle_data_Ok raw p q Hwf He)
      as [[Hl ->]|(tag & q' & Hl & Hst & Hq)]; rewrite Hl; [done|].
    apply span_or_continuation_frame in Hq
      as (_ & -> & -> & _ & _ & _ & _ & -> & _).
    pose proof (before_span_step_state _ _ _ _ Hst) as Hs.
    destruct (before_span_step_frame _ _ _ _ Hst) as (Et & _).
    change (state q' = mode_after_text tag (state p)) in Hs.
    rewrite Hs, Et. f_equal.
    destruct Hst as [p Hm|p Hm|p|p ss st Hm E|p ss st Hm E|p ss st Hm E|tag p];
      simpl; try done.
    + rewrite decide_True by done. by rewrite fmap_app.
    + rewrite decide_False; [done|]. intros [-> Hm]. by apply H3.
Qed.

Lemma feed_from_item_counts (evs : list event) (p q : parser) :
  wf p → feed_from p evs = Ok q →
  item_counts q
  = expected_item_counts_from (current_tags p) (state p) (item_counts p) evs.
Proof.
  revert p. induction evs as [|e evs IH]; intros p Hwf.
  { simpl. by intros [= <-]. }
  cbn [feed_from]. intros H. apply bind_Ok in H as (p' & He & H).
  rewrite (handle_item_counts e p p' Hwf He).
  apply IH; [by eapply handle_wf|done].
Qed.

Lemma length_omap_lookup {A : Type} (h : list A) (l : list ref) :
  Forall (λ r, (r < length h)%nat) l →
  length (omap (M := list) (λ i, h !! i) l) = length l.
Proof.
  induction 1 as [|r l Hr _ IH]; [done|].
  simpl. destruct (lookup_lt_is_Some_2 h r Hr) as [x ->]. simpl.
  f_equal. exact IH.
Qed.

Lemma tree_of_column_count (p : parser) (col : Column.t) :
  wf p → col ∈ column_store p →
  length (default [] (column_items (tree_of_column p col)))
  = length (default [] (Column.items col)).
Proof.
  intros Hwf Hcol. unfold tree_of_column. simpl.
  destruct (Column.items col) as [l|] eqn:E; [|done]. simpl.
  apply length_omap_lookup.
  pose proof (proj1 (Forall_forall _ _) (wf_items p Hwf) col Hcol) as Hok.
  by destruct (Hok l E).
Qed.

(** X21: the number of items of each column of the document.  A list that
    is opened in Column or Item mode adds its item to the column that was
    created last; a level-3 heading text opens a column in Step mode only,
    so the lists that follow a later level-3 heading of the same step go
    to the column of the first one. *)
Theorem items_go_to_the_last_column (evs : list event) (p : parser) :
  feed evs = Ok p →
  (λ c, length (default [] (column_items c))) <$> columns_in (document_of p)
  = expected_item_counts evs.
Proof.
  intros H. pose proof (feed_wf evs p H) as Hwf.
  pose proof (feed_from_owned evs init p init_wf H init_owned) as Ho.
  rewrite (columns_of_the_document p Hwf Ho).
  rewrite <- list_fmap_compose.
  pose proof (feed_from_item_counts evs init p init_wf H) as Hc.
  change (item_counts p = expected_item_counts evs) in Hc.
  rewrite <- Hc. unfold item_counts. apply Forall_fmap_ext, Forall_forall.
  intros col Hcol. by apply tree_of_column_count.
Qed.

Lemma items_go_to_the_last_column_witness :
  (λ c, length (default [] (column_items c)))
    <$> columns_in (document_of (parser_after second_column))
  = expected_item_counts second_column.
Proof.
  apply (items_go_to_the_last_column second_column). vm_compute. reflexivity.
Defined.

Example expected_item_counts_second_column :
  expected_item_counts second_column = [2%nat] ∧
  expected_item_counts second_step = [1%nat].
Proof. split; vm_compute; reflexivity. Qed.

(** ** Lazy allocation, step by step and column by column *)







(** The second step of [column_then_step] comes after a level-3 heading
    text and has no [columns] key; the column of the first has no [items]
    key. *)
Example column_then_step_document :
  h3_texts column_then_step = ["C"] ∧
  h3_texts_by_step column_then_step = [["C"]; []] ∧
  expected_item_counts column_then_step = [0%nat] ∧
  step_columns <$> steps_in (document_of (parser_after column_then_step))
  = [Some [mk_column "C" None]; None].
Proof. split_and!; vm_compute; reflexivity. Qed.
